(** * Polish G2P (misaki/pl.py): text cleaning and phoneme canonicalization

    A shallow embedding of [misaki/pl.py].  A Python [str] is a sequence of
    Unicode code points: [len], [replace], [rstrip], the regular expressions
    and the sort key [-len(kv[0])] all count code points, not bytes.  A string
    is therefore a [list Z] of code points; string literals of the source are
    written as UTF-8 literals and decoded by [utf8]. *)

From Stdlib Require Import ZArith Lia List Bool Ascii String Sorting.Sorted Sorting.Permutation.
From stdpp Require Import base option list gmap.

Local Open Scope Z_scope.

(** ** Strings as code-point sequences *)

Abbreviation str := (list Z).

Module Utf8.

(** Continuation of a multi-byte sequence: [need] bytes are still expected
    and [acc] holds the bits read so far. *)
Fixpoint decode (need : nat) (acc : Z) (bs : list Z) : str :=
  match bs with
  | [] => []
  | b :: bs' =>
    match need with
    | S k =>
      let acc' := acc * 64 + b mod 64 in
      match k with
      | O => acc' :: decode O 0 bs'
      | _ => decode k acc' bs'
      end
    | O =>
      if b <? 128 then b :: decode O 0 bs'
      else if b <? 224 then decode 1 (b mod 32) bs'
      else if b <? 240 then decode 2 (b mod 16) bs'
      else decode 3 (b mod 8) bs'
    end
  end.

Definition bytes (s : string) : list Z :=
  map (fun a => Z.of_N (N_of_ascii a)) (list_ascii_of_string s).

End Utf8.

(** The code points of a UTF-8 literal. *)
Definition utf8 (s : string) : str := Utf8.decode O 0 (Utf8.bytes s).

(** [chr(i)]. *)
Definition chr (i : Z) : str := [i].

(** ** Python string primitives *)

(** [s.startswith(p)]. *)
Fixpoint startswith (p s : str) : bool :=
  match p, s with
  | [], _ => true
  | _ :: _, [] => false
  | a :: p', b :: s' => (a =? b) && startswith p' s'
  end.

(** [str.replace(old, new)] for a non-empty [old]: a left-to-right scan that
    replaces every non-overlapping occurrence.  [skip] counts the characters
    of the occurrence just replaced that are still to be passed over. *)
Fixpoint replace_scan (old new : str) (skip : nat) (s : str) : str :=
  match s with
  | [] => []
  | c :: s' =>
    match skip with
    | S k => replace_scan old new k s'
    | O =>
      if startswith old s
      then new ++ replace_scan old new (length old - 1) s'
      else c :: replace_scan old new O s'
    end
  end.

(** [s.replace(old, new)].  With an empty [old] Python puts [new] before
    every character and at the end. *)
Definition replace (old new s : str) : str :=
  match old with
  | [] => new ++ flat_map (fun c => c :: new) s
  | _ :: _ => replace_scan old new O s
  end.

(** Python's [str.isspace] on one code point (also the class [\s] of [re]
    for [str] patterns, and the default separator set of [split]/[strip]). *)
Definition isspace (c : Z) : bool :=
  ((9 <=? c) && (c <=? 13)) || ((28 <=? c) && (c <=? 32))
  || (c =? 133) || (c =? 160) || (c =? 5760)
  || ((8192 <=? c) && (c <=? 8202))
  || (c =? 8232) || (c =? 8233) || (c =? 8239) || (c =? 8287) || (c =? 12288).

(** [s.lstrip()]. *)
Fixpoint lstrip (s : str) : str :=
  match s with
  | c :: s' => if isspace c then lstrip s' else s
  | [] => []
  end.

(** Removal of the trailing characters satisfying [p]. *)
Fixpoint rstrip_by (p : Z -> bool) (s : str) : str :=
  match s with
  | [] => []
  | c :: s' =>
    match rstrip_by p s' with
    | [] => if p c then [] else [c]
    | r => c :: r
    end
  end.

(** [s.rstrip()] and [s.strip()]. *)
Definition rstrip (s : str) : str := rstrip_by isspace s.
Definition strip (s : str) : str := rstrip (lstrip s).

(** [s.rstrip(chars)]. *)
Definition rstrip_chars (chars s : str) : str :=
  rstrip_by (fun c => existsb (Z.eqb c) chars) s.

(** [s.split()]: the maximal runs of non-whitespace characters.  [cur] is
    the run being read, reversed. *)
Fixpoint split_scan (cur : str) (s : str) : list str :=
  match s with
  | [] => match cur with [] => [] | _ => [rev cur] end
  | c :: s' =>
    if isspace c
    then match cur with
         | [] => split_scan [] s'
         | _ => rev cur :: split_scan [] s'
         end
    else split_scan (c :: cur) s'
  end.

Definition split (s : str) : list str := split_scan [] s.

(** [sep.join(l)]. *)
Fixpoint join (sep : str) (l : list str) : str :=
  match l with
  | [] => []
  | [w] => w
  | w :: l' => w ++ sep ++ join sep l'
  end.

(** Number of occurrences of a code point. *)
Definition count (c : Z) (s : str) : nat := length (filter (fun x => x = c) s).


(** [sub in s] for strings. *)
Fixpoint str_in (sub s : str) : bool :=
  startswith sub s || match s with [] => false | _ :: s' => str_in sub s' end.

(** ** Exceptions *)

(** The outcome of a call that may raise; [e] is the exception's text. *)
Inductive result (A : Type) : Type :=
| Ok (a : A)
| Raise (e : string).
Arguments Ok {A} a.
Arguments Raise {A} e.

Definition bind {A B : Type} (r : result A) (k : A -> result B) : result B :=
  match r with
  | Ok a => k a
  | Raise e => Raise e
  end.

Notation "'do' x <- r ; k" := (bind r (fun x => k))
  (at level 10, x name, r at level 100, k at level 200).

(** [try: r except: h]. *)
Definition try_except {A : Type} (r : result A) (h : A) : A :=
  match r with
  | Ok a => a
  | Raise _ => h
  end.

(** ** The Python runtime *)

(** What the module takes from the Python runtime and is not written in it:
    [str.lower], the class [\d] of [re] (on one code point), the type of
    floats, and [int] and [float] applied to a string. *)
Class PyRuntime : Type := {
  lower : str -> str;
  isdecimal : Z -> bool;
  float : Type;
  int_of_str : str -> result Z;
  float_of_str : str -> result float
}.

(** ** The remap table (lines 31-58) *)

(** [sorted(items, key=key)]: Python's sort is stable, so an item goes in
    front of the already placed items (which come later in [items]) whose
    key is not smaller. *)
Fixpoint insert_by {A : Type} (key : A -> Z) (x : A) (l : list A) : list A :=
  match l with
  | [] => [x]
  | y :: l' => if key x <=? key y then x :: l else y :: insert_by key x l'
  end.

Definition sorted {A : Type} (key : A -> Z) (items : list A) : list A :=
  foldr (insert_by key) [] items.

(** [len(s)]. *)
Definition len (s : str) : Z := Z.of_nat (length s).

(** The dict literal of lines 31-58, in insertion order ([.items()]). *)
Definition PL_PHONEME_MAP_items : list (str * str) :=
  [ (utf8 "t^s", utf8 "ʦ");
    (utf8 "d^z", utf8 "ʣ");
    (utf8 "t^ʃ", utf8 "ʧ");
    (utf8 "d^ʒ", utf8 "ʤ");
    (utf8 "t^ɕ", utf8 "ʨ");
    (utf8 "d^ʑ", utf8 "ʥ");
    (utf8 "tʃ", utf8 "ʧ");
    (utf8 "dʒ", utf8 "ʤ");
    (utf8 "ts", utf8 "ʦ");
    (utf8 "dz", utf8 "ʣ");
    (utf8 "tɕ", utf8 "ʨ");
    (utf8 "dʑ", utf8 "ʥ");
    (utf8 "ɛ̃", utf8 "ɛ̃");
    (utf8 "ɔ̃", utf8 "ɔ̃");
    (utf8 "ɨ", utf8 "ɨ");
    (utf8 "ʐ", utf8 "ʐ");
    (utf8 "ʂ", utf8 "ʂ");
    (utf8 "ɕ", utf8 "ɕ");
    (utf8 "ʑ", utf8 "ʑ");
    (utf8 "ɲ", utf8 "ɲ");
    (utf8 "ː", []) ].

Definition PL_PHONEME_MAP : list (str * str) :=
  sorted (fun kv => - len (fst kv)) PL_PHONEME_MAP_items.

(** ** PLCleaner (lines 61-139) *)

Module PLCleaner.

(** The class attribute [ABBREVIATIONS]. *)
Definition ABBREVIATIONS : gmap (list Z) (list Z) :=
  list_to_map
  [ (utf8 "dr", utf8 "doktor");
    (utf8 "prof.", utf8 "profesor");
    (utf8 "mgr", utf8 "magister");
    (utf8 "inż.", utf8 "inżynier");
    (utf8 "ul.", utf8 "ulica");
    (utf8 "al.", utf8 "aleja");
    (utf8 "pl.", utf8 "plac");
    (utf8 "nr", utf8 "numer");
    (utf8 "tel.", utf8 "telefon");
    (utf8 "godz.", utf8 "godzina");
    (utf8 "min.", utf8 "minuta");
    (utf8 "sek.", utf8 "sekunda");
    (utf8 "tys.", utf8 "tysięcy");
    (utf8 "mln", utf8 "milionów");
    (utf8 "mld", utf8 "miliardów");
    (utf8 "zł", utf8 "złotych");
    (utf8 "gr", utf8 "groszy");
    (utf8 "r.", utf8 "roku");
    (utf8 "w.", utf8 "wieku");
    (utf8 "n.e.", utf8 "naszej ery");
    (utf8 "p.n.e.", utf8 "przed naszą erą");
    (utf8 "itd.", utf8 "i tak dalej");
    (utf8 "itp.", utf8 "i tym podobne");
    (utf8 "np.", utf8 "na przykład");
    (utf8 "tj.", utf8 "to jest");
    (utf8 "tzn.", utf8 "to znaczy");
    (utf8 "tzw.", utf8 "tak zwany");
    (utf8 "wg", utf8 "według");
    (utf8 "ws.", utf8 "w sprawie");
    (utf8 "ds.", utf8 "do spraw");
    (utf8 "ok.", utf8 "około");
    (utf8 "ca", utf8 "około");
    (utf8 "św.", utf8 "święty") ].

(** The local dict [replacements] of [_normalize_unicode], in order. *)
Definition replacements : list (str * str) :=
  [ (utf8 "ą", utf8 "ą"); (utf8 "ć", utf8 "ć"); (utf8 "ę", utf8 "ę");
    (utf8 "ł", utf8 "ł"); (utf8 "ń", utf8 "ń"); (utf8 "ó", utf8 "ó");
    (utf8 "ś", utf8 "ś"); (utf8 "ź", utf8 "ź"); (utf8 "ż", utf8 "ż");
    (utf8 "Ą", utf8 "Ą"); (utf8 "Ć", utf8 "Ć"); (utf8 "Ę", utf8 "Ę");
    (utf8 "Ł", utf8 "Ł"); (utf8 "Ń", utf8 "Ń"); (utf8 "Ó", utf8 "Ó");
    (utf8 "Ś", utf8 "Ś"); (utf8 "Ź", utf8 "Ź"); (utf8 "Ż", utf8 "Ż") ].

(** [_normalize_unicode]: [for old, new in replacements.items():
    text = text.replace(old, new)]. *)
Definition normalize_unicode (text : str) : str :=
  fold_left (fun text kv => replace (fst kv) (snd kv) text) replacements text.

Section WithRuntime.

Context `{PyRuntime}.

(** The lookup key of a token: [word.lower().rstrip('.,;:!?')]. *)
Definition word_lower (word : str) : str :=
  rstrip_chars (utf8 ".,;:!?") (lower word).

(** One iteration of the loop of [_expand_abbreviations]. *)
Definition expand_word (word : str) : str :=
  match ABBREVIATIONS !! word_lower word with
  | Some expansion => expansion
  | None => word
  end.

(** [_expand_abbreviations]. *)
Definition expand_abbreviations (text : str) : str :=
  let words := split text in
  let result := map expand_word words in
  join (utf8 " ") result.

(** [PLCleaner.__call__]. *)
Definition call (text : str) : str :=
  let text := strip text in
  let text := normalize_unicode text in
  let text := expand_abbreviations text in
  text.

End WithRuntime.

End PLCleaner.

(** ** PLG2P (lines 142-253) *)

Module PLG2P.

(** The keyword arguments of [phonemizer.backend.EspeakBackend]. *)
Record EspeakConfig : Type := {
  language : str;
  preserve_punctuation : bool;
  with_stress : bool;
  tie : str;
  language_switch : str
}.

(** The class [\d] followed by more of it: the longest prefix of [s] made
    of characters satisfying [p], and what follows it. *)
Fixpoint span (p : Z -> bool) (s : str) : str * str :=
  match s with
  | c :: s' => if p c then let '(a, b) := span p s' in (c :: a, b) else ([], s)
  | [] => ([], [])
  end.

(** [re.sub(r'(\S)\u0329', r'ᵊ\1', ps)]: a non-whitespace character followed
    by U+0329 becomes U+1D4A followed by that character; the scan goes on
    after the mark. *)
Fixpoint sub_syllabic (ps : str) : str :=
  match ps with
  | c :: ((m :: rest) as ps') =>
    if negb (isspace c) && (m =? 809)
    then utf8 "ᵊ" ++ c :: sub_syllabic rest
    else c :: sub_syllabic ps'
  | _ => ps
  end.

Section WithRuntime.

Context `{PyRuntime}.

(** The argument of [num2words]: an [int] or a [float]. *)
Inductive number : Type :=
| NInt (n : Z)
| NFloat (x : float).

(** The phonemizer backend object: its [phonemize] method. *)
Definition Backend : Type := list str -> result (list str).

(** The attributes of a [PLG2P] object. *)
Record t : Type := {
  version : str;
  backend : Backend;
  num2words : option (number -> result str)
}.

(** The imported collaborators: the constructor of the espeak backend, and
    [num2words] when [from num2words import num2words] succeeds. *)
Class Imports : Type := {
  EspeakBackend : EspeakConfig -> result Backend;
  num2words_import : option (number -> str -> result str)
}.

Context `{Imports}.

(** [__init__(self, fallback=None, version='2.0')]: an argument that is not
    given is [None] here. *)
Definition init (fallback : option str) (version : option str) : result t :=
  let version := default (utf8 "2.0") version in
  do backend <- EspeakBackend {|
    language := utf8 "pl";
    preserve_punctuation := true;
    with_stress := true;
    tie := utf8 "^";
    language_switch := utf8 "remove-flags" |};
  Ok {| version := version;
        backend := backend;
        num2words :=
          match num2words_import with
          | Some num2words => Some (fun n => num2words n (utf8 "pl"))
          | None => None
          end |}.

Section Methods.

Variable self : t.

(** The text matched by [\d+(?:[.,]\d+)?] at the start of [s], if any. *)
Definition match_number (s : str) : option str :=
  let '(int_part, rest) := span isdecimal s in
  match int_part with
  | [] => None
  | _ :: _ =>
    match rest with
    | sep :: rest' =>
      if (sep =? 46) || (sep =? 44) then
        let '(frac_part, _) := span isdecimal rest' in
        match frac_part with
        | [] => Some int_part
        | _ :: _ => Some (int_part ++ sep :: frac_part)
        end
      else Some int_part
    | [] => Some int_part
    end
  end.

(** The nested function [replace_number]; [num] is [match.group(0)] and
    [spell] is [self.num2words]. *)
Definition replace_number (spell : number -> result str) (num : str) : str :=
  if negb (str_in (utf8 ".") num) && negb (str_in (utf8 ",") num) then
    try_except (do n <- int_of_str num; spell (NInt n)) num
  else
    let num := replace (utf8 ",") (utf8 ".") num in
    try_except (do x <- float_of_str num; spell (NFloat x)) num.

(** [re.sub(r'\d+(?:[.,]\d+)?', replace_number, text)]; [skip] counts
    the characters of the last match still to be passed over. *)
Fixpoint sub_numbers (spell : number -> result str) (skip : nat) (text : str) : str :=
  match text with
  | [] => []
  | c :: text' =>
    match skip with
    | S k => sub_numbers spell k text'
    | O =>
      match match_number text with
      | Some num => replace_number spell num ++ sub_numbers spell (length num - 1) text'
      | None => c :: sub_numbers spell O text'
      end
    end
  end.

(** [_convert_numbers] (called only when [self.num2words] is set). *)
Definition convert_numbers (spell : number -> result str) (text : str) : str :=
  sub_numbers spell O text.

(** Lines 192-201 of [__call__]: the text handed to the backend. *)
Definition prepare (text : str) : str :=
  let text := PLCleaner.call text in
  let text :=
    match num2words self with
    | Some spell => convert_numbers spell text
    | None => text
    end in
  let text := replace (utf8 "»") [34] (replace (utf8 "«") [34] text) in
  let text := replace [34] [34] (replace (utf8 "„") [34] text) in
  text.

(** Lines 210-212: [for old, new in PL_PHONEME_MAP: ps = ps.replace(old, new)]. *)
Definition remap (ps : str) : str :=
  fold_left (fun ps kv => replace (fst kv) (snd kv) ps) PL_PHONEME_MAP ps.

(** Lines 217-222: the handling of syllabic consonants. *)
Definition syllabic (ps : str) : str :=
  if decide (version self = utf8 "2.0") then
    let ps := replace (chr 810) [] (replace (chr 809) [] ps) in
    sub_syllabic ps
  else
    replace (utf8 "-") [] ps.

(** Lines 210-222 of [__call__]: the remap rules, the removal of the tie
    characters and the handling of syllabic consonants. *)
Definition canonicalize (ps : str) : str :=
  let ps := remap ps in
  let ps := replace (utf8 "^") [] ps in
  syllabic ps.

(** Lines 208-222 of [__call__]: from the backend's first output [ps[0]] to
    the phoneme string. *)
Definition postprocess (raw : str) : str :=
  let ps := strip raw in
  canonicalize ps.

(** [__call__]. *)
Definition call (text : str) : result (str * option unit) :=
  let text := prepare text in
  do ps <- backend self [text];
  match ps with
  | [] => Ok ([], None)
  | raw :: _ => Ok (postprocess raw, None)
  end.

(** [phonemize]: [ps, _ = self(text); return ps]. *)
Definition phonemize (text : str) : result str :=
  do r <- call text;
  Ok (fst r).

End Methods.

(** The module-level [g2p]: [PLG2P()(text)[0]]. *)
Definition g2p (text : str) : result str :=
  do self <- init None None;
  do r <- call self text;
  Ok (fst r).

End WithRuntime.

End PLG2P.

(** ** A runtime for Latin text *)

(** The runtime restricted to what Polish text needs: [str.lower] as Python
    computes it on Basic Latin, Latin-1 Supplement and Latin Extended-A
    (other code points are kept), the ASCII digits for [\d], [int] on ASCII
    digits with the 4300-digit limit of CPython, and decimal literals read
    as exact rationals in place of floats. *)
Module Latin.

Definition lower_cp (c : Z) : str :=
  if (65 <=? c) && (c <=? 90) then [c + 32]
  else if (192 <=? c) && (c <=? 222) && negb (c =? 215) then [c + 32]
  else if c =? 304 then [105; 775]
  else if c =? 376 then [255]
  else if ((256 <=? c) && (c <=? 311)) || ((330 <=? c) && (c <=? 375))
       then (if Z.even c then [c + 1] else [c])
  else if ((313 <=? c) && (c <=? 328)) || ((377 <=? c) && (c <=? 382))
       then (if Z.odd c then [c + 1] else [c])
  else [c].

Definition lower (s : str) : str := flat_map lower_cp s.

Definition isdecimal (c : Z) : bool := (48 <=? c) && (c <=? 57).

(** The value of a sequence of ASCII digits read after [acc]. *)
Fixpoint digits_value (acc : Z) (s : str) : option Z :=
  match s with
  | [] => Some acc
  | c :: s' => if isdecimal c then digits_value (10 * acc + (c - 48)) s' else None
  end.

Definition int_of_str (s : str) : result Z :=
  match s with
  | [] => Raise "ValueError"
  | _ :: _ =>
    if 4300 <? len s then Raise "ValueError"
    else match digits_value 0 s with
         | Some n => Ok n
         | None => Raise "ValueError"
         end
  end.

(** [ddd.ddd] as the rational it denotes: numerator and denominator. *)
Definition float_of_str (s : str) : result (Z * Z) :=
  let '(int_part, rest) := PLG2P.span isdecimal s in
  match int_part, rest with
  | _ :: _, 46 :: ((_ :: _) as frac_part) =>
    match digits_value 0 (int_part ++ frac_part) with
    | Some n => Ok (n, 10 ^ len frac_part)
    | None => Raise "ValueError"
    end
  | _, _ => Raise "ValueError"
  end.

Definition runtime : PyRuntime :=
  Build_PyRuntime lower isdecimal (Z * Z) int_of_str float_of_str.

End Latin.

(** ** Rules and contexts *)

(** The rules [rules] applied in order, each over the whole string. *)
Definition apply_rules (rules : list (str * str)) (ps : str) : str :=
  fold_left (fun ps kv => replace (fst kv) (snd kv) ps) rules ps.

Definition mem (c : Z) (s : str) : bool := existsb (Z.eqb c) s.

(** A sufficient test that no rule of [rules] can match across an end of
    the text [x], whatever stands around it: at each rule the first
    character of the current text is not inside the rule's pattern after its
    first character, and the last one is not inside it before its last. *)
Fixpoint isolated (rules : list (str * str)) (x : str) : bool :=
  match rules with
  | [] => true
  | (old, new) :: rules' =>
    match old, x, last x with
    | _ :: _, c :: _, Some d =>
      negb (mem c (tail old)) && negb (mem d (removelast old))
      && isolated rules' (replace old new x)
    | _, _, _ => false
    end
  end.

(** Equality of strings as a boolean. *)
Fixpoint str_eqb (a b : str) : bool :=
  match a, b with
  | [], [] => true
  | x :: a', y :: b' => (x =? y) && str_eqb a' b'
  | _, _ => false
  end.

(** No rule of [rules] removes or adds the character [c]. *)
Definition untouched (c : Z) (rules : list (str * str)) : bool :=
  forallb (fun kv =>
    match fst kv with [] => false | _ :: _ => true end
    && negb (mem c (fst kv)) && negb (mem c (snd kv))) rules.

(** The rules of [rules] with a pattern of two characters or more stand
    alone among [rules] and are mapped by them to their own target. *)
Definition long_rules_isolated (rules : list (str * str)) : bool :=
  forallb (fun kv =>
    (length (fst kv) <? 2)%nat
    || (isolated rules (fst kv) && str_eqb (apply_rules rules (fst kv)) (snd kv)))
    rules.

Definition pair_eqb (kv1 kv2 : str * str) : bool :=
  str_eqb (fst kv1) (fst kv2) && str_eqb (snd kv1) (snd kv2).

(** Whenever the pattern of a rule occurs inside the pattern of another
    rule, the enclosing pattern has two characters or more. *)
Definition enclosing_patterns_long (rules : list (str * str)) : bool :=
  forallb (fun long =>
    forallb (fun short =>
      negb (str_in (fst short) (fst long)) || pair_eqb long short
      || (2 <=? length (fst long))%nat) rules) rules.

(** Every rule replaces one character by itself. *)
Definition identity_rules (rules : list (str * str)) : bool :=
  forallb (fun kv =>
    match kv with
    | ([a], [b]) => a =? b
    | _ => false
    end) rules.

(** The six affricates: the tie-marked notation, the plain two-letter
    notation and the canonical symbol. *)
Definition affricates : list (str * str * str) :=
  [ (utf8 "t^s", utf8 "ts", utf8 "ʦ");
    (utf8 "d^z", utf8 "dz", utf8 "ʣ");
    (utf8 "t^ʃ", utf8 "tʃ", utf8 "ʧ");
    (utf8 "d^ʒ", utf8 "dʒ", utf8 "ʤ");
    (utf8 "t^ɕ", utf8 "tɕ", utf8 "ʨ");
    (utf8 "d^ʑ", utf8 "dʑ", utf8 "ʥ") ].

(** A string is blank when it is empty or made of whitespace only. *)
Definition blank (s : str) : bool := forallb isspace s.

(** ** Sample collaborators *)

Module Sample.

(** A backend that gives back each text as its own transcription. *)
Definition echo : PLG2P.Backend := fun texts => Ok texts.

(** A backend that returns no output at all. *)
Definition silent : PLG2P.Backend := fun _ => Ok [].

(** A backend that returns an empty transcription for each text. *)
Definition mute : PLG2P.Backend := fun texts => Ok (map (fun _ => []) texts).

(** A backend that answers every text with the transcription [x]. *)
Definition chatty : PLG2P.Backend := fun texts => Ok (map (fun _ => utf8 "x") texts).

(** A backend whose call fails. *)
Definition broken : PLG2P.Backend := fun _ => Raise "RuntimeError".

(** A speller that fails on every number. *)
Definition no_words : PLG2P.number (H := Latin.runtime) -> result str :=
  fun _ => Raise "OverflowError".

(** A converter over the Latin runtime, without [num2words]. *)
Definition g2p_with (version : str) (backend : PLG2P.Backend)
  : PLG2P.t (H := Latin.runtime) :=
  {| PLG2P.version := version; PLG2P.backend := backend; PLG2P.num2words := None |}.

(** Imports for which espeak is installed and [num2words] is not. *)
Definition imports : PLG2P.Imports (H := Latin.runtime) :=
  {| PLG2P.EspeakBackend := fun _ => Ok echo; PLG2P.num2words_import := None |}.

(** Imports for which the espeak backend cannot be built. *)
Definition no_espeak : PLG2P.Imports (H := Latin.runtime) :=
  {| PLG2P.EspeakBackend := fun _ => Raise "RuntimeError";
     PLG2P.num2words_import := None |}.

End Sample.

(** No rule of [rules] makes a string longer. *)
Definition shrinking (rules : list (str * str)) : bool :=
  forallb (fun kv =>
    match fst kv with [] => false | _ :: _ => true end
    && (length (snd kv) <=? length (fst kv))%nat) rules.

(** Every rule of [rules] either replaces its pattern by itself or has one
    of [chars] in its pattern. *)
Definition triggered_by (chars : str) (rules : list (str * str)) : bool :=
  forallb (fun kv =>
    match fst kv with [] => false | _ :: _ => true end
    && (str_eqb (fst kv) (snd kv) || existsb (fun c => mem c (fst kv)) chars)) rules.

(** Every rule of [rules] either replaces its pattern by itself or has a
    target made of [symbols]. *)
Definition targets_among (symbols : str) (rules : list (str * str)) : bool :=
  forallb (fun kv =>
    match fst kv with [] => false | _ :: _ => true end
    && (str_eqb (fst kv) (snd kv) || forallb (fun c => mem c symbols) (snd kv))) rules.

(** The six canonical affricate symbols. *)
Definition affricate_symbols : str := utf8 "ʦʣʧʤʨʥ".

(** A key that ends with one of the characters removed by
    [rstrip('.,;:!?')]. *)
Definition ends_with_punctuation (key : str) : bool :=
  match last key with
  | Some d => mem d (utf8 ".,;:!?")
  | None => false
  end.

(** A non-empty string without whitespace. *)
Definition is_word (w : str) : bool :=
  match w with
  | [] => false
  | _ :: _ => forallb (fun c => negb (isspace c)) w
  end.

(** The expansion of every entry whose key does not end with punctuation is
    one word. *)
Definition expansions_are_words : bool :=
  forallb (fun kv => ends_with_punctuation (fst kv) || is_word (snd kv))
    (map_to_list PLCleaner.ABBREVIATIONS).

(** The expansion of every entry whose key does not end with punctuation
    does not end with punctuation and is not itself a key. *)
Definition expansions_are_final : bool :=
  forallb (fun kv =>
    ends_with_punctuation (fst kv)
    || (str_eqb (rstrip_chars (utf8 ".,;:!?") (snd kv)) (snd kv)
        && match PLCleaner.ABBREVIATIONS !! snd kv with
           | None => true
           | Some _ => false
           end))
    (map_to_list PLCleaner.ABBREVIATIONS).

(** * Properties *)

(** Membership in a list that is given in full. *)
Ltac elem_of_list :=
  vm_compute; repeat first [apply list_elem_of_here | apply list_elem_of_further].

(** ** The scan of [str.replace] *)

#[local] Arguments replace : simpl never.
#[local] Arguments utf8 : simpl never.
#[local] Arguments PL_PHONEME_MAP : simpl never.

Lemma startswith_prefix (p s : str) :
  startswith p s = true <-> exists r, s = p ++ r.
Proof.
  revert s; induction p as [|a p IH]; intros s; simpl.
  - split; [intros _; by exists s | done].
  - destruct s as [|b s].
    + split; [done | intros [r Hr]; discriminate].
    + rewrite andb_true_iff, Z.eqb_eq, IH. split.
      * intros [-> [r ->]]. by exists r.
      * intros [r Hr]. injection Hr as -> ->. split; [done | by exists r].
Qed.

Lemma startswith_app (p r : str) : startswith p (p ++ r) = true.
Proof. apply startswith_prefix. by exists r. Qed.

Lemma startswith_refl (p : str) : startswith p p = true.
Proof. apply startswith_prefix. exists []. by rewrite app_nil_r. Qed.

Lemma replace_scan_skip (old new : str) (k : nat) (s : str) :
  replace_scan old new k s = replace_scan old new O (drop k s).
Proof.
  revert k; induction s as [|c s IH]; intros [|k]; simpl; done.
Qed.

(** The equations of [replace] for a non-empty pattern. *)
Lemma replace_nil (old new : str) : old <> [] -> replace old new [] = [].
Proof. by destruct old. Qed.

Lemma replace_hit (old new s : str) :
  old <> [] -> startswith old s = true ->
  replace old new s = new ++ replace old new (drop (length old) s).
Proof.
  intros Hold Hs. destruct old as [|a old]; [done|].
  destruct s as [|c s]; [done|].
  unfold replace. cbn [replace_scan]. rewrite Hs.
  rewrite replace_scan_skip. do 2 f_equal. simpl. by rewrite Nat.sub_0_r.
Qed.

Lemma replace_miss (old new : str) (c : Z) (s : str) :
  old <> [] -> startswith old (c :: s) = false ->
  replace old new (c :: s) = c :: replace old new s.
Proof.
  intros Hold Hs. destruct old as [|a old]; [done|].
  unfold replace. cbn [replace_scan]. by rewrite Hs.
Qed.

(** Induction along the scan. *)
Lemma replace_scan_ind (old : str) (P : str -> Prop) :
  old <> [] ->
  P [] ->
  (forall s, startswith old s = true -> P (drop (length old) s) -> P s) ->
  (forall c s, startswith old (c :: s) = false -> P s -> P (c :: s)) ->
  forall s, P s.
Proof.
  intros Hold Hnil Hhit Hmiss s.
  remember (length s) as n eqn:Hn.
  revert s Hn; induction n as [n IH] using lt_wf_ind; intros s ->.
  destruct s as [|c s]; [done|].
  destruct (startswith old (c :: s)) eqn:Hs.
  - apply Hhit; [done|].
    apply (IH (length (drop (length old) (c :: s)))); [|done].
    rewrite length_drop. destruct old; [done | simpl; lia].
  - apply Hmiss; [done|]. apply (IH (length s)); [simpl; lia | done].
Qed.

(** Deleting one character is a filter. *)
Lemma replace_delete_char (c : Z) (s : str) :
  replace [c] [] s = filter (fun x => x <> c) s.
Proof.
  induction s as [|x s IH]; [done|].
  destruct (startswith [c] (x :: s)) eqn:Hs.
  - rewrite replace_hit by done. simpl in Hs |- *.
    rewrite andb_true_r in Hs. apply Z.eqb_eq in Hs as ->.
    rewrite drop_0, IH. by rewrite filter_cons_False by (intros ?; done).
  - rewrite replace_miss by done. simpl in Hs.
    rewrite andb_true_r in Hs. apply Z.eqb_neq in Hs.
    rewrite filter_cons_True by (intros ->; done). by rewrite IH.
Qed.

(** Replacing a character by itself changes nothing. *)
Lemma replace_same_char (c : Z) (s : str) : replace [c] [c] s = s.
Proof.
  induction s as [|x s IH]; [done|].
  destruct (startswith [c] (x :: s)) eqn:Hs.
  - rewrite replace_hit by done. simpl in Hs |- *.
    rewrite andb_true_r in Hs. apply Z.eqb_eq in Hs as ->.
    by rewrite drop_0, IH.
  - rewrite replace_miss by done. by rewrite IH.
Qed.

(** A replacement that neither removes nor adds [c] keeps every [c]. *)
Lemma replace_keeps_char (c : Z) (old new s : str) :
  old <> [] -> c ∉ old -> c ∉ new ->
  filter (fun x => x = c) (replace old new s) = filter (fun x => x = c) s.
Proof.
  intros Hold Hco Hcn. revert s.
  apply (replace_scan_ind old);
    [done | by rewrite replace_nil | intros s Hs IH | intros x s Hs IH].
  - rewrite replace_hit by done.
    apply startswith_prefix in Hs as [r ->].
    rewrite drop_app_length in IH |- *.
    rewrite !filter_app, IH. f_equal.
    transitivity (@nil Z).
    + clear -Hcn. induction new as [|y new IHn]; [done|].
      rewrite filter_cons_False; [apply IHn|]; set_solver.
    + clear -Hco. induction old as [|y old IHn]; [done|].
      rewrite filter_cons_False; [apply IHn|]; set_solver.
  - rewrite replace_miss by done. rewrite !filter_cons, IH. done.
Qed.

(** No occurrence of [old] can start in [a] and run into [c :: rest] when
    [c] is not among the characters of [old] after the first. *)
Lemma replace_app_l (old new a rest : str) (c : Z) :
  old <> [] -> c ∉ tail old ->
  replace old new (a ++ c :: rest) = replace old new a ++ replace old new (c :: rest).
Proof.
  intros Hold Hc. revert a.
  apply (replace_scan_ind old);
    [done | by rewrite replace_nil | intros a Ha IH | intros x a Ha IH].
  - rewrite (replace_hit old new a) by done.
    apply startswith_prefix in Ha as [r ->].
    rewrite drop_app_length in IH |- *.
    rewrite <- !app_assoc. rewrite replace_hit by (done || apply startswith_app).
    by rewrite drop_app_length, IH.
  - rewrite (replace_miss old new x a) by done.
    rewrite <- app_comm_cons, replace_miss, IH; [done | done |].
    apply not_true_is_false. intros [r Hr]%startswith_prefix.
    rewrite app_comm_cons in Hr. symmetry in Hr.
    apply app_eq_inv in Hr as [(k & Hk & Hk')|(k & Hk & _)].
    + destruct k as [|z k].
      { rewrite app_nil_r in Hk. rewrite <- Hk in Ha.
        by rewrite startswith_refl in Ha. }
      injection Hk' as <- _. apply Hc. rewrite Hk. simpl. set_solver.
    + rewrite Hk, startswith_app in Ha. done.
Qed.

(** No occurrence of [old] can start in [l] and run into [b] when the last
    character of [l] is not among the characters of [old] before the last. *)
Lemma replace_app_r (old new l b : str) (c : Z) :
  old <> [] -> c ∉ removelast old -> l = [] \/ last l = Some c ->
  replace old new (l ++ b) = replace old new l ++ replace old new b.
Proof.
  intros Hold Hc. revert l.
  apply (replace_scan_ind old (fun l => l = [] \/ last l = Some c -> _));
    [done | by rewrite replace_nil | intros l Hl IH Hlast | intros x l Hl IH Hlast].
  - rewrite (replace_hit old new l) by done.
    apply startswith_prefix in Hl as [r ->].
    rewrite drop_app_length in IH |- *.
    rewrite <- !app_assoc. rewrite replace_hit by (done || apply startswith_app).
    rewrite drop_app_length, IH; [done|].
    destruct r as [|y r]; [by left | right].
    destruct Hlast as [Hnil|Hlast]; [by destruct old|].
    by rewrite last_app_cons in Hlast.
  - rewrite (replace_miss old new x l) by done.
    assert (Hx : last (x :: l) = Some c) by (by destruct Hlast).
    rewrite <- app_comm_cons, replace_miss, IH; [done | | done |].
    + destruct l as [|y l]; [by left | right]. by rewrite last_cons_cons in Hx.
    + apply not_true_is_false. intros [r Hr]%startswith_prefix.
      rewrite app_comm_cons in Hr. symmetry in Hr.
      apply app_eq_inv in Hr as [(k & Hk & _)|(k & Hk & _)].
      * destruct k as [|z k].
        { rewrite app_nil_r in Hk. rewrite <- Hk in Hl.
          by rewrite startswith_refl in Hl. }
        apply Hc. rewrite Hk, removelast_app by done.
        apply elem_of_app. left. by apply last_Some_elem_of.
      * rewrite Hk, startswith_app in Hl. done.
Qed.

Lemma mem_elem_of (c : Z) (s : str) : mem c s = false -> c ∉ s.
Proof.
  unfold mem. intros Hm Hin. apply not_true_iff_false in Hm. apply Hm.
  apply existsb_exists. exists c. split; [by apply list_elem_of_In | apply Z.eqb_refl].
Qed.

Lemma str_eqb_eq (a b : str) : str_eqb a b = true <-> a = b.
Proof.
  revert b; induction a as [|x a IH]; intros [|y b]; simpl; try done.
  rewrite andb_true_iff, Z.eqb_eq, IH. split; [by intros [-> ->] | by intros [= -> ->]].
Qed.

(** ** Texts that no rule can split *)

Lemma apply_rules_nil (rules : list (str * str)) :
  Forall (fun kv => fst kv <> []) rules -> apply_rules rules [] = [].
Proof.
  induction 1 as [|[old new] rules Hold _ IH]; [done|].
  simpl in *. by rewrite replace_nil.
Qed.

Lemma apply_rules_isolated (rules : list (str * str)) (x : str) :
  isolated rules x = true ->
  forall a b,
    apply_rules rules (a ++ x ++ b)
    = apply_rules rules a ++ apply_rules rules x ++ apply_rules rules b.
Proof.
  revert x; induction rules as [|[old new] rules IH]; intros x Hx a b; [done|].
  simpl in Hx. destruct old as [|o old]; [done|].
  destruct x as [|c x]; [done|].
  destruct (last (c :: x)) as [d|] eqn:Hlast; [|done].
  apply andb_true_iff in Hx as [[Hc Hd]%andb_true_iff Hx].
  apply negb_true_iff, mem_elem_of in Hc, Hd.
  cbn [apply_rules fold_left fst snd].
  change (fold_left _ rules ?s) with (apply_rules rules s).
  rewrite <- app_comm_cons, replace_app_l by done.
  rewrite app_comm_cons, (replace_app_r _ _ _ _ d) by (done || by right).
  by apply IH.
Qed.

(** ** Stripping *)

Lemma lstrip_app_cons (a r : str) (c : Z) :
  isspace c = false -> lstrip (a ++ c :: r) = lstrip a ++ c :: r.
Proof.
  intros Hc. induction a as [|x a IH]; simpl; [by rewrite Hc|].
  destruct (isspace x); [apply IH | done].
Qed.

Lemma rstrip_by_app_cons (p : Z -> bool) (l b : str) (d : Z) :
  p d = false -> rstrip_by p (l ++ d :: b) = l ++ d :: rstrip_by p b.
Proof.
  intros Hd. induction l as [|x l IH]; simpl.
  - destruct (rstrip_by p b); [by rewrite Hd | done].
  - rewrite IH. by destruct l.
Qed.

Lemma rstrip_by_blank (p : Z -> bool) (s : str) :
  forallb p s = true -> rstrip_by p s = [].
Proof.
  induction s as [|c s IH]; [done|]. simpl.
  intros [Hc Hs]%andb_true_iff. by rewrite IH, Hc.
Qed.

Lemma lstrip_blank (s : str) : forallb isspace s = true -> lstrip s = [].
Proof.
  induction s as [|c s IH]; [done|]. simpl.
  intros [Hc Hs]%andb_true_iff. rewrite Hc. by apply IH.
Qed.

Lemma strip_blank (s : str) : forallb isspace s = true -> strip s = [].
Proof. intros Hs. unfold strip. by rewrite lstrip_blank. Qed.

(** A text with a non-blank character at each end keeps it when the
    surrounding string is stripped. *)
Lemma strip_around (a x b : str) (c d : Z) :
  head x = Some c -> last x = Some d ->
  isspace c = false -> isspace d = false ->
  strip (a ++ x ++ b) = lstrip a ++ x ++ rstrip b.
Proof.
  intros Hc Hd Hsc Hsd. unfold strip, rstrip.
  destruct x as [|c' x]; [done|]. injection Hc as ->.
  rewrite <- app_comm_cons, lstrip_app_cons by done.
  destruct (last_Some (c :: x) d) as [[l Hl] _]; [done|].
  rewrite app_comm_cons, Hl, <- !app_assoc. simpl.
  rewrite (app_assoc (lstrip a)), rstrip_by_app_cons by done.
  by rewrite <- app_assoc.
Qed.

Lemma lstrip_keeps_char (c : Z) (s : str) :
  isspace c = false ->
  filter (fun x => x = c) (lstrip s) = filter (fun x => x = c) s.
Proof.
  intros Hc. induction s as [|x s IH]; [done|]. simpl.
  destruct (isspace x) eqn:Hx; [|done].
  rewrite filter_cons_False; [done | by intros ->; rewrite Hc in Hx].
Qed.

Lemma rstrip_by_keeps_char (p : Z -> bool) (c : Z) (s : str) :
  p c = false ->
  filter (fun x => x = c) (rstrip_by p s) = filter (fun x => x = c) s.
Proof.
  intros Hc. induction s as [|x s IH]; [done|]. simpl.
  destruct (rstrip_by p s) as [|y r].
  - destruct (p x) eqn:Hx.
    + rewrite filter_cons_False; [done | by intros ->; rewrite Hc in Hx].
    + by rewrite !filter_cons, <- IH.
  - by rewrite !filter_cons, <- IH.
Qed.

Lemma strip_keeps_char (c : Z) (s : str) :
  isspace c = false ->
  filter (fun x => x = c) (strip s) = filter (fun x => x = c) s.
Proof.
  intros Hc. unfold strip, rstrip.
  by rewrite rstrip_by_keeps_char, lstrip_keeps_char.
Qed.

(** ** The handling of syllabic consonants *)

Lemma sub_syllabic_no_mark (ps : str) :
  809 ∉ ps -> PLG2P.sub_syllabic ps = ps.
Proof.
  induction ps as [|c ps IH]; [done|]. intros Hps.
  destruct ps as [|m rest]; [done|].
  apply not_elem_of_cons in Hps as [_ Hps].
  pose proof Hps as [Hm%not_eq_sym%Z.eqb_neq _]%not_elem_of_cons.
  cbn [PLG2P.sub_syllabic]. rewrite Hm, andb_false_r.
  f_equal. by apply IH.
Qed.

Section Postprocess.

Context `{PyRuntime}.
Variable self : PLG2P.t.

Lemma syllabic_v2 (ps : str) :
  PLG2P.version self = utf8 "2.0" ->
  PLG2P.syllabic self ps
  = filter (fun x => x <> 810) (filter (fun x => x <> 809) ps).
Proof.
  intros Hv. unfold PLG2P.syllabic. rewrite decide_True by done.
  unfold chr. rewrite !replace_delete_char.
  apply sub_syllabic_no_mark.
  intros [_ [Hn _]%list_elem_of_filter]%list_elem_of_filter. done.
Qed.

Lemma syllabic_other (ps : str) :
  PLG2P.version self <> utf8 "2.0" ->
  PLG2P.syllabic self ps = filter (fun x => x <> 45) ps.
Proof.
  intros Hv. unfold PLG2P.syllabic. rewrite decide_False by done.
  apply replace_delete_char.
Qed.

(** In both versions the last step only deletes characters, none of them
    the tie character or a canonical symbol. *)
Lemma syllabic_filter :
  exists drop_ : Z -> bool,
    (forall ps, PLG2P.syllabic self ps = filter (fun x => drop_ x = false) ps)
    /\ (forall x, drop_ x = true -> x = 809 \/ x = 810 \/ x = 45).
Proof.
  destruct (decide (PLG2P.version self = utf8 "2.0")) as [Hv|Hv].
  - exists (fun x => (x =? 809) || (x =? 810)). split.
    + intros ps. rewrite syllabic_v2, list_filter_filter by done.
      apply list_filter_iff. intros x. rewrite orb_false_iff, !Z.eqb_neq. tauto.
    + intros x. rewrite orb_true_iff, !Z.eqb_eq. tauto.
  - exists (fun x => x =? 45). split.
    + intros ps. rewrite syllabic_other by done.
      apply list_filter_iff. intros x. by rewrite Z.eqb_neq.
    + intros x. rewrite Z.eqb_eq. tauto.
Qed.

Lemma canonicalize_filter :
  exists drop_ : Z -> bool,
    (forall ps, PLG2P.canonicalize self ps
                = filter (fun x => drop_ x = false) (PLG2P.remap ps))
    /\ drop_ 94 = true
    /\ (forall x, drop_ x = true -> x = 94 \/ x = 809 \/ x = 810 \/ x = 45).
Proof.
  destruct syllabic_filter as (d & Hd & Hx).
  exists (fun x => (x =? 94) || d x). split; [|split].
  - intros ps. unfold PLG2P.canonicalize.
    change (utf8 "^") with [94]. rewrite replace_delete_char, Hd, list_filter_filter.
    apply list_filter_iff. intros x. rewrite orb_false_iff, Z.eqb_neq. tauto.
  - done.
  - intros x [->%Z.eqb_eq|Hdx%Hx]%orb_true_iff; tauto.
Qed.

End Postprocess.

(** ** Sorting *)

Section Sorted.

Context {A : Type} (key : A -> Z).

Lemma insert_by_perm (x : A) (l : list A) : insert_by key x l ≡ₚ x :: l.
Proof.
  induction l as [|y l IH]; [done|]. simpl.
  destruct (key x <=? key y); [done|].
  rewrite IH. apply Permutation_swap.
Qed.

Lemma sorted_perm (l : list A) : sorted key l ≡ₚ l.
Proof.
  induction l as [|x l IH]; [done|]. unfold sorted in *. simpl.
  by rewrite insert_by_perm, IH.
Qed.

Lemma insert_by_sorted (x : A) (l : list A) :
  StronglySorted (fun a b => key a <= key b) l ->
  StronglySorted (fun a b => key a <= key b) (insert_by key x l).
Proof.
  induction 1 as [|y l Hl IH Hy]; simpl.
  - repeat constructor.
  - destruct (key x <=? key y) eqn:Hxy.
    + apply Z.leb_le in Hxy. constructor; [by constructor|].
      constructor; [done|].
      eapply Forall_impl; [exact Hy|]. simpl. intros z Hz. lia.
    + apply Z.leb_gt in Hxy. constructor; [done|].
      rewrite insert_by_perm. constructor; [lia | done].
Qed.

Lemma sorted_sorted (l : list A) :
  StronglySorted (fun a b => key a <= key b) (sorted key l).
Proof.
  induction l as [|x l IH]; [constructor|]. by apply insert_by_sorted.
Qed.

End Sorted.

Lemma StronglySorted_weaken {A : Type} (R R' : A -> A -> Prop) (l : list A) :
  (forall x y, R x y -> R' x y) -> StronglySorted R l -> StronglySorted R' l.
Proof.
  intros HR. induction 1 as [|x l Hl IH Hx]; constructor; [done|].
  eapply Forall_impl; [exact Hx | apply HR].
Qed.

(** ** The remap table *)

Lemma PL_PHONEME_MAP_order :
  StronglySorted (fun r1 r2 => (length (fst r2) <= length (fst r1))%nat) PL_PHONEME_MAP.
Proof.
  eapply StronglySorted_weaken; [|apply sorted_sorted].
  intros r1 r2. unfold len. simpl. lia.
Qed.

Lemma remap_apply_rules (ps : str) : PLG2P.remap ps = apply_rules PL_PHONEME_MAP ps.
Proof. done. Qed.

Lemma apply_rules_keeps_char (c : Z) (rules : list (str * str)) (ps : str) :
  untouched c rules = true ->
  filter (fun x => x = c) (apply_rules rules ps) = filter (fun x => x = c) ps.
Proof.
  revert ps; induction rules as [|[old new] rules IH]; intros ps Hr; [done|].
  simpl in Hr. apply andb_true_iff in Hr as [[[Hold Hco]%andb_true_iff Hcn]%andb_true_iff Hr].
  apply negb_true_iff, mem_elem_of in Hco, Hcn.
  cbn [apply_rules fold_left fst snd].
  change (fold_left _ rules ?s) with (apply_rules rules s).
  rewrite IH by done. apply replace_keeps_char; [by destruct old | done | done].
Qed.

Lemma remap_keeps_char (c : Z) (ps : str) :
  untouched c PL_PHONEME_MAP = true ->
  filter (fun x => x = c) (PLG2P.remap ps) = filter (fun x => x = c) ps.
Proof. apply apply_rules_keeps_char. Qed.

Lemma PL_PHONEME_MAP_isolated : long_rules_isolated PL_PHONEME_MAP = true.
Proof. vm_compute. reflexivity. Qed.

(** A pattern of two characters or more is replaced by its target wherever
    it stands, and the target stays as it is. *)
Lemma remap_long_rule (old new a b : str) :
  (old, new) ∈ PL_PHONEME_MAP -> (2 <= length old)%nat ->
  PLG2P.remap (a ++ old ++ b) = PLG2P.remap a ++ new ++ PLG2P.remap b.
Proof.
  intros Hin Hlen.
  pose proof PL_PHONEME_MAP_isolated as Hall.
  unfold long_rules_isolated in Hall. rewrite forallb_forall in Hall.
  assert (Hin' : In (old, new) PL_PHONEME_MAP) by (by apply list_elem_of_In).
  apply Hall, orb_true_iff in Hin' as [Hshort|[Hiso Heq]%andb_true_iff];
    cbn [fst snd] in *.
  - apply Nat.ltb_lt in Hshort. lia.
  - apply str_eqb_eq in Heq. rewrite !remap_apply_rules.
    by rewrite apply_rules_isolated, Heq.
Qed.

(** ** Unicode normalization *)

Lemma apply_identity_rules (rules : list (str * str)) (s : str) :
  identity_rules rules = true -> apply_rules rules s = s.
Proof.
  revert s; induction rules as [|[old new] rules IH]; intros s Hr; [done|].
  simpl in Hr. apply andb_true_iff in Hr as [Hkv Hr].
  destruct old as [|a [|? ?]], new as [|b [|? ?]]; try done.
  apply Z.eqb_eq in Hkv as ->.
  cbn [apply_rules fold_left fst snd]. rewrite replace_same_char.
  by apply IH.
Qed.

Lemma normalize_unicode_id (text : str) : PLCleaner.normalize_unicode text = text.
Proof.
  change (PLCleaner.normalize_unicode text)
    with (apply_rules PLCleaner.replacements text).
  apply apply_identity_rules. vm_compute. reflexivity.
Qed.

(** C7: the unicode normalization step [_normalize_unicode] of the cleaner
    is idempotent: applied twice it gives the same string as applied once. *)
Theorem normalize_unicode_idempotent (s : str) :
  PLCleaner.normalize_unicode (PLCleaner.normalize_unicode s)
  = PLCleaner.normalize_unicode s.
Proof. by rewrite !normalize_unicode_id. Qed.

(** ** Longest pattern first *)

Lemma str_in_startswith (sub s : str) :
  startswith sub s = true -> str_in sub s = true.
Proof. intros Hs. destruct s; simpl; by rewrite Hs. Qed.

Lemma str_in_infix (sub u v : str) : str_in sub (u ++ sub ++ v) = true.
Proof.
  induction u as [|x u IH].
  - apply str_in_startswith. apply (startswith_app sub v).
  - cbn [app str_in]. rewrite IH. apply orb_true_r.
Qed.

Lemma pair_eqb_eq (kv1 kv2 : str * str) : pair_eqb kv1 kv2 = true -> kv1 = kv2.
Proof.
  destruct kv1, kv2. unfold pair_eqb. simpl.
  by intros [->%str_eqb_eq ->%str_eqb_eq]%andb_true_iff.
Qed.

Lemma PL_PHONEME_MAP_enclosing : enclosing_patterns_long PL_PHONEME_MAP = true.
Proof. vm_compute. reflexivity. Qed.

(** C4: the remap rules are applied one after the other, each over the
    whole string, sorted by decreasing pattern length; when the pattern of
    one rule occurs inside the pattern of another rule, an occurrence of the
    longer pattern is replaced by the longer rule's target in every context,
    and that target is not touched by any other rule. *)
Theorem remap_longest_first :
  (forall ps,
     PLG2P.remap ps
     = fold_left (fun ps kv => replace (fst kv) (snd kv) ps) PL_PHONEME_MAP ps)
  /\ PL_PHONEME_MAP ≡ₚ PL_PHONEME_MAP_items
  /\ StronglySorted
       (fun r1 r2 => (length (fst r2) <= length (fst r1))%nat) PL_PHONEME_MAP
  /\ (forall long short u v a b,
        long ∈ PL_PHONEME_MAP -> short ∈ PL_PHONEME_MAP -> long <> short ->
        fst long = u ++ fst short ++ v ->
        PLG2P.remap (a ++ fst long ++ b)
        = PLG2P.remap a ++ snd long ++ PLG2P.remap b).
Proof.
  split; [done|]. split; [apply sorted_perm|]. split; [apply PL_PHONEME_MAP_order|].
  intros [old new] short u v a b Hlong Hshort Hne Hsub.
  apply remap_long_rule; [done|].
  pose proof PL_PHONEME_MAP_enclosing as Hall.
  unfold enclosing_patterns_long in Hall. rewrite forallb_forall in Hall.
  specialize (Hall (old, new)). rewrite forallb_forall in Hall.
  specialize (Hall (ltac:(by apply list_elem_of_In)) short (ltac:(by apply list_elem_of_In))).
  cbn [fst snd] in Hsub, Hall. rewrite Hsub in Hall at 1.
  rewrite str_in_infix in Hall. cbn [negb orb] in Hall.
  apply orb_true_iff in Hall as [Heq%pair_eqb_eq|Hlen%Nat.leb_le]; [done|].
  exact Hlen.
Qed.

Lemma remap_longest_first_witness :
  PLG2P.remap (utf8 "a" ++ utf8 "t^ɕ" ++ utf8 "a")
  = PLG2P.remap (utf8 "a") ++ utf8 "ʨ" ++ PLG2P.remap (utf8 "a").
Proof.
  destruct remap_longest_first as (_ & _ & _ & Hwin).
  apply (Hwin (utf8 "t^ɕ", utf8 "ʨ") (utf8 "ɕ", utf8 "ɕ") (utf8 "t^") []).
  - elem_of_list.
  - elem_of_list.
  - vm_compute. intros [=].
  - vm_compute. reflexivity.
Defined.

(** ** Canonical affricates and the tie character *)

Lemma filter_keep_all (keep : Z -> bool) (s : str) :
  forallb keep s = true -> filter (fun x => keep x = true) s = s.
Proof.
  induction s as [|x s IH]; [done|]. simpl.
  intros [Hx Hs]%andb_true_iff. rewrite filter_cons_True by done.
  by rewrite IH.
Qed.

Section Canonical.

Context `{PyRuntime}.
Variable self : PLG2P.t.

(** A rule with a pattern of two characters or more, neither end of which
    is whitespace, and a target made of characters that the last steps keep:
    in every raw string an occurrence of the pattern becomes the target. *)
Lemma postprocess_long_rule (old new a b : str) (c d : Z) :
  (old, new) ∈ PL_PHONEME_MAP -> (2 <= length old)%nat ->
  head old = Some c -> last old = Some d ->
  isspace c = false -> isspace d = false ->
  forallb (fun x => negb (mem x [94; 809; 810; 45])) new = true ->
  PLG2P.postprocess self (a ++ old ++ b)
  = PLG2P.canonicalize self (lstrip a) ++ new ++ PLG2P.canonicalize self (rstrip b).
Proof.
  intros Hin Hlen Hc Hd Hsc Hsd Hnew. unfold PLG2P.postprocess.
  rewrite (strip_around a old b c d) by done.
  destruct (canonicalize_filter self) as (dr & Hcanon & _ & Hdr).
  rewrite !Hcanon, (remap_long_rule old new), !filter_app by done.
  do 2 f_equal.
  clear -Hnew Hdr. induction new as [|x new IH]; [done|].
  simpl in Hnew. apply andb_true_iff in Hnew as [Hx Hnew].
  rewrite filter_cons_True, IH; [done | done |].
  destruct (dr x) eqn:Hdx; [|done].
  apply Hdr in Hdx. destruct Hdx as [-> | [-> | [-> | ->]]]; discriminate Hx.
Qed.

Lemma postprocess_no_tie (raw : str) : 94 ∉ PLG2P.postprocess self raw.
Proof.
  unfold PLG2P.postprocess.
  destruct (canonicalize_filter self) as (dr & Hcanon & Htie & _).
  rewrite Hcanon. intros [Hk _]%list_elem_of_filter. congruence.
Qed.

Lemma call_ok_inv (text out : str) (aux : option unit) :
  PLG2P.call self text = Ok (out, aux) ->
  aux = None
  /\ (PLG2P.backend self [PLG2P.prepare self text] = Ok [] /\ out = []
      \/ exists raw rest,
           PLG2P.backend self [PLG2P.prepare self text] = Ok (raw :: rest)
           /\ out = PLG2P.postprocess self raw).
Proof.
  unfold PLG2P.call.
  destruct (PLG2P.backend self [PLG2P.prepare self text]) as [[|raw rest]|e];
    simpl; intros [= <- <-]; (split; [done|]); [by left | right; by exists raw, rest].
Qed.

End Canonical.

(** C6: each of the six tie-marked affricate sequences and each of the six
    plain two-letter sequences occurring in the raw transcription becomes the
    canonical symbol of its affricate, whatever stands around it, and the
    phoneme string that a call returns contains no tie character. *)
Theorem affricates_canonical `{PyRuntime} (self : PLG2P.t) :
  (forall tied plain symbol a b,
     (tied, plain, symbol) ∈ affricates ->
     symbol ∈ map utf8 ["ʦ"; "ʣ"; "ʧ"; "ʤ"; "ʨ"; "ʥ"]%string
     /\ PLG2P.postprocess self (a ++ tied ++ b)
        = PLG2P.canonicalize self (lstrip a) ++ symbol
          ++ PLG2P.canonicalize self (rstrip b)
     /\ PLG2P.postprocess self (a ++ plain ++ b)
        = PLG2P.canonicalize self (lstrip a) ++ symbol
          ++ PLG2P.canonicalize self (rstrip b))
  /\ (forall text out aux,
        PLG2P.call self text = Ok (out, aux) -> 94 ∉ out).
Proof.
  split.
  - intros tied plain symbol a b Hin.
    unfold affricates in Hin. vm_compute in Hin.
    repeat (apply elem_of_cons in Hin as [[= -> -> ->]|Hin]);
      [..|by apply elem_of_nil in Hin];
      (split; [elem_of_list|]);
      split;
      (eapply postprocess_long_rule;
       [elem_of_list | cbn [length]; lia | reflexivity | reflexivity
       | reflexivity | reflexivity | reflexivity ]).
  - intros text out aux [_ [[_ ->]|(raw & rest & _ & ->)]]%call_ok_inv.
    + apply not_elem_of_nil.
    + apply postprocess_no_tie.
Qed.

Lemma affricates_canonical_witness :
  let self := Sample.g2p_with (utf8 "2.0") Sample.echo in
  PLG2P.postprocess self (utf8 " a" ++ utf8 "t^ɕ" ++ utf8 "a ")
  = PLG2P.canonicalize self (lstrip (utf8 " a")) ++ utf8 "ʨ"
    ++ PLG2P.canonicalize self (rstrip (utf8 "a "))
  /\ 94 ∉ utf8 "ʨa".
Proof.
  intros self. destruct (affricates_canonical self) as [Hsym Htie].
  split.
  - destruct (Hsym (utf8 "t^ɕ") (utf8 "tɕ") (utf8 "ʨ") (utf8 " a") (utf8 "a "))
      as (_ & Htied & _); [elem_of_list | exact Htied].
  - apply (Htie (utf8 "t^ɕa") (utf8 "ʨa") None). vm_compute. reflexivity.
Defined.

(** ** The version of the format *)

Lemma filter_eq_filter_ne (c d : Z) (s : str) :
  c <> d ->
  filter (fun x => x = c) (filter (fun x => x <> d) s) = filter (fun x => x = c) s.
Proof.
  intros Hcd. rewrite list_filter_filter. apply list_filter_iff.
  intros x. split; [tauto | intros ->; done].
Qed.

Lemma count_pos (c : Z) (s : str) : c ∈ s <-> (0 < count c s)%nat.
Proof.
  unfold count. induction s as [|x s IH]; simpl.
  - split; [by intros ?%elem_of_nil | lia].
  - rewrite elem_of_cons, filter_cons. destruct (decide (x = c)); simpl.
    + split; [lia | by left].
    + rewrite IH. split; [by intros [->|?] | by right].
Qed.

Section Version2.

Context `{PyRuntime}.
Variable self : PLG2P.t.
Hypothesis Hversion : PLG2P.version self = utf8 "2.0".

Lemma syllabic_v2_branch (ps : str) :
  PLG2P.syllabic self ps
  = PLG2P.sub_syllabic (replace (chr 810) [] (replace (chr 809) [] ps)).
Proof. unfold PLG2P.syllabic. by rewrite decide_True. Qed.

Lemma postprocess_v2 (raw : str) :
  PLG2P.postprocess self raw
  = filter (fun x => x <> 810) (filter (fun x => x <> 809)
      (filter (fun x => x <> 94) (PLG2P.remap (strip raw)))).
Proof.
  unfold PLG2P.postprocess, PLG2P.canonicalize.
  rewrite syllabic_v2 by done.
  change (utf8 "^") with [94]. by rewrite replace_delete_char.
Qed.

(** A character that is neither whitespace nor deleted nor part of a rule
    occurs as often in the phoneme string as in the raw string. *)
Lemma postprocess_v2_keeps_char (c : Z) (raw : str) :
  isspace c = false -> c <> 94 -> c <> 809 -> c <> 810 ->
  untouched c PL_PHONEME_MAP = true ->
  count c (PLG2P.postprocess self raw) = count c raw.
Proof.
  intros Hsp H94 H809 H810 Hc. unfold count. rewrite postprocess_v2.
  rewrite !filter_eq_filter_ne by done.
  by rewrite remap_keeps_char, strip_keeps_char.
Qed.

End Version2.

(** C10: a converter built without a [version] argument has version "2.0":
    its phoneme string is the one of version "2.0" (after the remap rules
    and the removal of the tie characters, the deletion of [chr(809)] and
    [chr(810)] followed by the schwa substitution), so that neither U+0329
    nor U+032A is in the phoneme string that a call returns, while every
    hyphen of the raw transcription is still in it. *)
Theorem default_version `{PyRuntime} `{!PLG2P.Imports}
    (fallback : option str) (self : PLG2P.t) :
  PLG2P.init fallback None = Ok self ->
  PLG2P.version self = utf8 "2.0"
  /\ (forall raw,
        PLG2P.postprocess self raw
        = PLG2P.sub_syllabic
            (replace (chr 810) []
               (replace (chr 809) []
                  (replace (utf8 "^") [] (PLG2P.remap (strip raw))))))
  /\ (forall text raw rest,
        PLG2P.backend self [PLG2P.prepare self text] = Ok (raw :: rest) ->
        exists out,
          PLG2P.call self text = Ok (out, None)
          /\ (809 ∉ out) /\ (810 ∉ out) /\ count 45 out = count 45 raw).
Proof.
  unfold PLG2P.init. destruct (PLG2P.EspeakBackend _) as [backend|e]; [|done].
  cbn [bind default]. intros [= <-].
  set (self := {| PLG2P.version := utf8 "2.0"; PLG2P.backend := backend;
                  PLG2P.num2words := _ |}).
  assert (Hv : PLG2P.version self = utf8 "2.0") by reflexivity.
  split; [exact Hv|]. split.
  - intros raw. unfold PLG2P.postprocess, PLG2P.canonicalize.
    by apply syllabic_v2_branch.
  - intros text raw rest Hb. exists (PLG2P.postprocess self raw).
    split; [unfold PLG2P.call; by rewrite Hb|].
    split; [|split].
    + rewrite postprocess_v2 by done.
      by intros [_ [Hn _]%list_elem_of_filter]%list_elem_of_filter.
    + rewrite postprocess_v2 by done. by intros [Hn _]%list_elem_of_filter.
    + by apply postprocess_v2_keeps_char.
Qed.

Lemma default_version_witness :
  exists self,
    PLG2P.init (H0 := Sample.imports) None None = Ok self
    /\ PLG2P.version self = utf8 "2.0"
    /\ exists out,
         PLG2P.call self [110; 809; 45; 97; 810] = Ok (out, None)
         /\ (809 ∉ out) /\ (810 ∉ out)
         /\ count 45 out = count 45 [110; 809; 45; 97; 810].
Proof.
  eexists. split; [reflexivity|].
  destruct (default_version (H0 := Sample.imports) None _ eq_refl) as (Hv & _ & Hcall).
  split; [exact Hv|].
  apply (Hcall [110; 809; 45; 97; 810] [110; 809; 45; 97; 810] []).
  vm_compute. reflexivity.
Defined.

(** ** The two combining marks of version "2.0" *)




(** ** The schwa before a syllabic consonant *)

(** C3 (the code departs from it): with version "2.0" the raw token [n]
    followed by the syllabicity mark U+0329 gives [n] alone: the mark has
    been deleted before the substitution by U+1D4A is tried, which therefore
    never applies. *)
Theorem syllabic_mark_lost `{PyRuntime} (self : PLG2P.t) :
  PLG2P.version self = utf8 "2.0" ->
  PLG2P.postprocess self [110; 809] = [110]
  /\ PLG2P.sub_syllabic [110; 809] = utf8 "ᵊn"
  /\ forall raw, 7498 ∉ raw -> 7498 ∉ PLG2P.postprocess self raw.
Proof.
  intros Hv. split; [|split].
  - rewrite postprocess_v2 by done. vm_compute. reflexivity.
  - vm_compute. reflexivity.
  - intros raw Hraw Hin%count_pos. apply Hraw, count_pos.
    by rewrite postprocess_v2_keeps_char in Hin.
Qed.

Lemma syllabic_mark_lost_witness :
  PLG2P.postprocess (Sample.g2p_with (utf8 "2.0") Sample.echo) [110; 809] = [110].
Proof.
  apply (syllabic_mark_lost (Sample.g2p_with (utf8 "2.0") Sample.echo)).
  reflexivity.
Defined.

(** ** Failure of the transcription engine *)

(** C1, as stated, fails: an empty phoneme string is also returned for a
    text that is not blank, when the backend returns no output or an empty
    transcription. *)
Lemma empty_result_for_nonblank_text :
  ~ (forall (self : PLG2P.t (H := Latin.runtime)) (text : str) (aux : option unit),
       PLG2P.call self text = Ok ([], aux) -> blank text = true).
Proof.
  intros Hall.
  specialize (Hall (Sample.g2p_with (utf8 "2.0") Sample.silent) (utf8 "a") None eq_refl).
  discriminate Hall.
Qed.

(** C1, amended: an error raised by the transcription engine, when the
    backend is built (with the configuration that [__init__] passes) or
    when it is called, reaches the caller as that error and is never turned
    into a phoneme string; a call returns a phoneme string only when the
    backend has returned, and it returns the empty one whenever the backend
    returns no output, whatever the text. *)
Theorem engine_failure_surfaces `{PyRuntime} `{!PLG2P.Imports} :
  (forall fallback version e,
     PLG2P.EspeakBackend
       {| PLG2P.language := utf8 "pl";
          PLG2P.preserve_punctuation := true;
          PLG2P.with_stress := true;
          PLG2P.tie := utf8 "^";
          PLG2P.language_switch := utf8 "remove-flags" |} = Raise e ->
     PLG2P.init fallback version = Raise e)
  /\ (forall self text e,
        PLG2P.backend self [PLG2P.prepare self text] = Raise e ->
        PLG2P.call self text = Raise e /\ PLG2P.phonemize self text = Raise e)
  /\ (forall self text r,
        PLG2P.call self text = Ok r ->
        exists ps, PLG2P.backend self [PLG2P.prepare self text] = Ok ps)
  /\ (forall self text,
        PLG2P.backend self [PLG2P.prepare self text] = Ok [] ->
        PLG2P.call self text = Ok ([], None)).
Proof.
  split; [|split; [|split]].
  - intros fallback version e He. unfold PLG2P.init. by rewrite He.
  - intros self text e He. unfold PLG2P.phonemize, PLG2P.call. by rewrite He.
  - intros self text r. unfold PLG2P.call.
    destruct (PLG2P.backend self _) as [ps|e]; [by exists ps | done].
  - intros self text Hb. unfold PLG2P.call. by rewrite Hb.
Qed.

Lemma engine_failure_surfaces_witness :
  PLG2P.init (H0 := Sample.no_espeak) None None = Raise "RuntimeError"
  /\ PLG2P.call (Sample.g2p_with (utf8 "2.0") Sample.broken) (utf8 "a")
     = Raise "RuntimeError"
  /\ (exists ps, Sample.echo [utf8 "a"] = Ok ps)
  /\ PLG2P.call (Sample.g2p_with (utf8 "2.0") Sample.silent) (utf8 "a")
     = Ok ([], None).
Proof.
  destruct (engine_failure_surfaces (H0 := Sample.no_espeak))
    as (Hinit & Hcall & Hok & Hnone).
  split; [|split; [|split]].
  - apply Hinit. reflexivity.
  - apply (Hcall (Sample.g2p_with (utf8 "2.0") Sample.broken)). reflexivity.
  - apply (Hok (Sample.g2p_with (utf8 "2.0") Sample.echo) (utf8 "a") (utf8 "a", None)).
    reflexivity.
  - apply (Hnone (Sample.g2p_with (utf8 "2.0") Sample.silent)). reflexivity.
Defined.

(** ** Blank input *)

Section Blank.

Context `{PyRuntime}.
Variable self : PLG2P.t.

Lemma cleaner_blank (text : str) : blank text = true -> PLCleaner.call text = [].
Proof.
  intros Hb. unfold PLCleaner.call.
  rewrite strip_blank by done. by rewrite normalize_unicode_id.
Qed.

Lemma prepare_blank (text : str) : blank text = true -> PLG2P.prepare self text = [].
Proof.
  intros Hb. unfold PLG2P.prepare. rewrite cleaner_blank by done.
  by destruct (PLG2P.num2words self).
Qed.

Lemma postprocess_blank (raw : str) : blank raw = true -> PLG2P.postprocess self raw = [].
Proof.
  intros Hb. unfold PLG2P.postprocess. rewrite strip_blank by done.
  unfold PLG2P.canonicalize, PLG2P.syllabic.
  by destruct (decide (PLG2P.version self = utf8 "2.0")).
Qed.

End Blank.

(** C9, as stated, fails: the backend is called also for a blank text, and
    when that call fails the conversion of the blank text fails. *)
Lemma blank_input_error :
  ~ (forall (self : PLG2P.t (H := Latin.runtime)) (text : str),
       blank text = true -> PLG2P.call self text = Ok ([], None)).
Proof.
  intros Hall.
  specialize (Hall (Sample.g2p_with (utf8 "2.0") Sample.broken) (utf8 "   ") eq_refl).
  discriminate Hall.
Qed.

(** The result for a blank text is what the backend makes of the empty
    text: a backend that answers it with [x] gives the phoneme string [x]. *)
Lemma blank_input_not_empty :
  PLG2P.call (Sample.g2p_with (utf8 "2.0") Sample.chatty) (utf8 "   ")
  = Ok (utf8 "x", None).
Proof. vm_compute. reflexivity. Qed.

(** C9, amended: for an empty or whitespace-only text the backend is called
    with the empty text; when the backend answers the empty text with no
    output or with a blank transcription the call returns the empty phoneme
    string with no auxiliary value, and when the backend raises an error on
    the empty text the call raises that error. *)
Theorem blank_input_empty `{PyRuntime} (self : PLG2P.t) (text : str) :
  blank text = true ->
  PLG2P.prepare self text = []
  /\ (PLG2P.backend self [[]] = Ok []
      \/ (exists raw rest,
            PLG2P.backend self [[]] = Ok (raw :: rest) /\ blank raw = true) ->
      PLG2P.call self text = Ok ([], None))
  /\ (forall e,
        PLG2P.backend self [[]] = Raise e -> PLG2P.call self text = Raise e).
Proof.
  intros Hb. pose proof (prepare_blank self text Hb) as Hp.
  split; [done|]. unfold PLG2P.call. rewrite Hp. split.
  - intros [->|(raw & rest & -> & Hraw)]; [done|].
    cbn [bind]. by rewrite postprocess_blank.
  - intros e ->. done.
Qed.

Lemma blank_input_empty_witness :
  PLG2P.prepare (Sample.g2p_with (utf8 "2.0") Sample.echo) (utf8 "   ") = []
  /\ PLG2P.call (Sample.g2p_with (utf8 "2.0") Sample.echo) (utf8 "   ")
     = Ok ([], None)
  /\ PLG2P.call (Sample.g2p_with (utf8 "2.0") Sample.broken) (utf8 "   ")
     = Raise "RuntimeError".
Proof.
  destruct (blank_input_empty (Sample.g2p_with (utf8 "2.0") Sample.echo)
              (utf8 "   ") eq_refl) as (Hprep & Hempty & _).
  destruct (blank_input_empty (Sample.g2p_with (utf8 "2.0") Sample.broken)
              (utf8 "   ") eq_refl) as (_ & _ & Herr).
  split; [exact Hprep|]. split.
  - apply Hempty. right. exists [], []. split; reflexivity.
  - apply Herr. reflexivity.
Defined.

(** ** Abbreviations *)

Lemma rstrip_by_last (p : Z -> bool) (s : str) (d : Z) :
  last (rstrip_by p s) = Some d -> p d = false.
Proof.
  induction s as [|c s IH]; [done|]. simpl.
  destruct (rstrip_by p s) as [|y r].
  - destruct (p c) eqn:Hc; [done|]. by intros [= <-].
  - rewrite last_cons_cons. apply IH.
Qed.

(** The lookup key of a token never ends with one of [.,;:!?], so that an
    entry whose key ends with one of them is never found. *)
Lemma word_lower_no_trailing_punctuation `{PyRuntime} (word key : str) (d : Z) :
  last key = Some d -> d ∈ utf8 ".,;:!?" -> PLCleaner.word_lower word <> key.
Proof.
  intros Hlast Hd Heq. rewrite <- Heq in Hlast.
  apply rstrip_by_last in Hlast.
  apply not_true_iff_false in Hlast. apply Hlast.
  apply existsb_exists. exists d. split; [by apply list_elem_of_In | apply Z.eqb_refl].
Qed.

(** C2 (the code departs from it): the table has the entry [prof.] with the
    expansion [profesor], but the token [prof.] is looked up under the key
    [prof], which is no entry, and stays as it is; the token [dr.] is
    looked up under [dr] and expanded. *)
Theorem dotted_abbreviation_not_expanded :
  PLCleaner.ABBREVIATIONS !! utf8 "prof." = Some (utf8 "profesor")
  /\ PLCleaner.word_lower (H := Latin.runtime) (utf8 "prof.") = utf8 "prof"
  /\ PLCleaner.ABBREVIATIONS !! utf8 "prof" = None
  /\ PLCleaner.expand_abbreviations (H := Latin.runtime) (utf8 "prof. Nowak")
     = utf8 "prof. Nowak"
  /\ PLCleaner.expand_abbreviations (H := Latin.runtime) (utf8 "Dr. Nowak")
     = utf8 "doktor Nowak".
Proof. repeat split; vm_compute; reflexivity. Qed.

(** ** Numerals *)

Section Numbers.

Context `{PyRuntime}.

(** A numeral with a separator whose spelling succeeds is replaced by the
    word form of the one decimal number it denotes. *)
Lemma replace_number_decimal (spell : PLG2P.number -> result str)
    (num words : str) (x : float) :
  negb (str_in (utf8 ".") num) && negb (str_in (utf8 ",") num) = false ->
  float_of_str (replace (utf8 ",") (utf8 ".") num) = Ok x ->
  spell (PLG2P.NFloat x) = Ok words ->
  PLG2P.replace_number spell num = words.
Proof.
  intros Hsep Hx Hw. unfold PLG2P.replace_number. rewrite Hsep, Hx. simpl.
  by rewrite Hw.
Qed.

(** A numeral with a separator whose parsing or spelling fails is replaced
    by its text with every comma turned into a full stop. *)
Lemma replace_number_decimal_failure (spell : PLG2P.number -> result str)
    (num : str) (e : string) :
  negb (str_in (utf8 ".") num) && negb (str_in (utf8 ",") num) = false ->
  (do x <- float_of_str (replace (utf8 ",") (utf8 ".") num); spell (PLG2P.NFloat x))
  = Raise e ->
  PLG2P.replace_number spell num = replace (utf8 ",") (utf8 ".") num.
Proof.
  intros Hsep He. unfold PLG2P.replace_number. by rewrite Hsep, He.
Qed.

(** A numeral without separator whose parsing or spelling fails is left as
    it is. *)
Lemma replace_number_integer_failure (spell : PLG2P.number -> result str)
    (num : str) (e : string) :
  negb (str_in (utf8 ".") num) && negb (str_in (utf8 ",") num) = true ->
  (do n <- int_of_str num; spell (PLG2P.NInt n)) = Raise e ->
  PLG2P.replace_number spell num = num.
Proof.
  intros Hsep He. unfold PLG2P.replace_number. by rewrite Hsep, He.
Qed.

End Numbers.

(** C8 (the code departs from it): in [12,5 km] the numeral [12,5] is one
    match and is read as the decimal number 12.5, but when its spelling
    fails the text put back is [12.5], with the comma turned into a full
    stop, and not the original [12,5]; a failing integer is put back
    unchanged. *)
Theorem failed_decimal_rewritten :
  PLG2P.match_number (H := Latin.runtime) (utf8 "12,5 km") = Some (utf8 "12,5")
  /\ float_of_str (PyRuntime := Latin.runtime)
       (replace (utf8 ",") (utf8 ".") (utf8 "12,5")) = Ok (125, 10)
  /\ PLG2P.convert_numbers (H := Latin.runtime) Sample.no_words (utf8 "12,5 km")
     = utf8 "12.5 km"
  /\ PLG2P.convert_numbers (H := Latin.runtime) Sample.no_words (utf8 "12 km")
     = utf8 "12 km".
Proof. repeat split; vm_compute; reflexivity. Qed.

(** * Further properties *)

(** ** More on [str.replace] *)

Lemma replace_same (old s : str) : old <> [] -> replace old old s = s.
Proof.
  intros Hold. revert s.
  apply (replace_scan_ind old);
    [done | by rewrite replace_nil | intros s Hs IH | intros x s Hs IH].
  - rewrite replace_hit by done. rewrite IH.
    apply startswith_prefix in Hs as [r ->]. by rewrite drop_app_length.
  - rewrite replace_miss by done. by rewrite IH.
Qed.

Lemma replace_absent (old new s : str) (c : Z) :
  c ∈ old -> c ∉ s -> replace old new s = s.
Proof.
  intros Hc. assert (Hold : old <> []) by (intros ->; by apply elem_of_nil in Hc).
  induction s as [|x s IH]; intros Hs; [by rewrite replace_nil|].
  rewrite replace_miss, IH; [done | | done |].
  - intros Hin. apply Hs. by right.
  - apply not_true_is_false. intros [r Hr]%startswith_prefix.
    apply Hs. rewrite Hr. apply elem_of_app. by left.
Qed.

Lemma replace_length (old new s : str) :
  old <> [] -> (length new <= length old)%nat ->
  (length (replace old new s) <= length s)%nat.
Proof.
  intros Hold Hlen. revert s.
  apply (replace_scan_ind old);
    [done | by rewrite replace_nil | intros s Hs IH | intros x s Hs IH].
  - rewrite replace_hit by done.
    apply startswith_prefix in Hs as [r ->].
    rewrite drop_app_length in IH |- *. rewrite !length_app. lia.
  - rewrite replace_miss by done. simpl. lia.
Qed.

Lemma replace_elem_of (old new s : str) (c : Z) :
  old <> [] -> c ∈ replace old new s -> c ∈ s \/ c ∈ new.
Proof.
  intros Hold. revert s.
  apply (replace_scan_ind old (fun s => c ∈ replace old new s -> c ∈ s \/ c ∈ new));
    cbv beta;
    [done | rewrite replace_nil by done; by left | intros s Hs IH | intros x s Hs IH].
  - rewrite replace_hit by done.
    apply startswith_prefix in Hs as [r ->].
    rewrite drop_app_length in IH |- *.
    intros [Hn|Hr]%elem_of_app; [by right|].
    destruct (IH Hr) as [?|?]; [left | by right].
    apply elem_of_app. by right.
  - rewrite replace_miss by done.
    intros [->|Hin]%elem_of_cons; [left; by left|].
    destruct (IH Hin) as [?|?]; [left; by right | by right].
Qed.

(** ** Rules applied in sequence *)

Lemma apply_rules_app (rules1 rules2 : list (str * str)) (ps : str) :
  apply_rules (rules1 ++ rules2) ps = apply_rules rules2 (apply_rules rules1 ps).
Proof. apply fold_left_app. Qed.

Lemma apply_rules_length (rules : list (str * str)) (ps : str) :
  shrinking rules = true -> (length (apply_rules rules ps) <= length ps)%nat.
Proof.
  revert ps; induction rules as [|[old new] rules IH]; intros ps Hr; [done|].
  cbn [shrinking forallb fst snd] in Hr.
  apply andb_true_iff in Hr as [[Hold Hlen%Nat.leb_le]%andb_true_iff Hr].
  cbn [apply_rules fold_left fst snd].
  change (fold_left _ rules ?s) with (apply_rules rules s).
  etrans; [by apply IH|]. apply replace_length; [by destruct old | done].
Qed.

Lemma apply_rules_untriggered (chars : str) (rules : list (str * str)) (ps : str) :
  triggered_by chars rules = true -> (forall c, c ∈ chars -> c ∉ ps) ->
  apply_rules rules ps = ps.
Proof.
  intros Hr Hps. induction rules as [|[old new] rules IH]; [done|].
  cbn [triggered_by forallb fst snd] in Hr.
  apply andb_true_iff in Hr as [[Hold Hkv]%andb_true_iff Hr].
  cbn [apply_rules fold_left fst snd].
  change (fold_left _ rules ?s) with (apply_rules rules s).
  assert (Hsame : replace old new ps = ps); [|rewrite Hsame; by apply IH].
  apply orb_true_iff in Hkv as [->%str_eqb_eq|Hex].
  - apply replace_same. by destruct new.
  - apply existsb_exists in Hex as (c & Hc%list_elem_of_In & Hm).
    apply (replace_absent _ _ _ c); [|by apply Hps].
    destruct (decide (c ∈ old)) as [|Hn]; [done|].
    exfalso. revert Hm. apply not_true_iff_false.
    unfold mem. apply not_true_iff_false. intros Hm.
    apply existsb_exists in Hm as (y & Hy%list_elem_of_In & ->%Z.eqb_eq). done.
Qed.

Lemma apply_rules_elem_of (symbols : str) (rules : list (str * str)) (ps : str) (c : Z) :
  targets_among symbols rules = true ->
  c ∈ apply_rules rules ps -> c ∈ ps \/ c ∈ symbols.
Proof.
  revert ps; induction rules as [|[old new] rules IH]; intros ps Hr Hc; [by left|].
  cbn [targets_among forallb fst snd] in Hr.
  apply andb_true_iff in Hr as [[Hold Hkv]%andb_true_iff Hr].
  cbn [apply_rules fold_left fst snd] in Hc.
  change (fold_left _ rules ?s) with (apply_rules rules s) in Hc.
  apply IH in Hc as [Hc|Hc]; [|by right|done].
  apply orb_true_iff in Hkv as [->%str_eqb_eq|Hall].
  - rewrite replace_same in Hc by (by destruct new). by left.
  - apply replace_elem_of in Hc as [Hc|Hc]; [by left | | by destruct old].
    right. rewrite forallb_forall in Hall.
    apply list_elem_of_In, Hall in Hc. unfold mem in Hc.
    apply existsb_exists in Hc as (y & Hy%list_elem_of_In & ->%Z.eqb_eq). done.
Qed.

Lemma filter_keep_all_id (keep : Z -> Prop) `{forall x, Decision (keep x)} (s : str) :
  (forall x, x ∈ s -> keep x) -> filter keep s = s.
Proof.
  induction s as [|x s IH]; intros Hs; [done|].
  rewrite filter_cons_True by (apply Hs; by left).
  rewrite IH; [done|]. intros y Hy. apply Hs. by right.
Qed.

(** ** The phoneme string and the raw transcription *)

Lemma lstrip_suffix (s : str) : exists a, s = a ++ lstrip s.
Proof.
  induction s as [|c s [a IH]]; [by exists []|]. simpl.
  destruct (isspace c); [|by exists []].
  exists (c :: a). simpl. by f_equal.
Qed.

Lemma rstrip_by_prefix (p : Z -> bool) (s : str) : exists b, s = rstrip_by p s ++ b.
Proof.
  induction s as [|c s [b IH]]; [by exists []|]. simpl.
  destruct (rstrip_by p s) as [|y r].
  - destruct (p c); [by exists (c :: s)|]. exists b. simpl. by f_equal.
  - exists b. simpl. by f_equal.
Qed.

Lemma strip_infix (s : str) : exists a b, s = a ++ strip s ++ b.
Proof.
  destruct (lstrip_suffix s) as [a Ha].
  destruct (rstrip_by_prefix isspace (lstrip s)) as [b Hb].
  exists a, b. unfold strip, rstrip. by rewrite <- Hb.
Qed.

Lemma strip_length (s : str) : (length (strip s) <= length s)%nat.
Proof.
  destruct (strip_infix s) as (a & b & Hs). rewrite Hs at 2.
  rewrite !length_app. lia.
Qed.

Lemma strip_elem_of (c : Z) (s : str) : c ∈ strip s -> c ∈ s.
Proof.
  destruct (strip_infix s) as (a & b & Hs). intros Hc. rewrite Hs.
  apply elem_of_app. right. apply elem_of_app. by left.
Qed.

Lemma PL_PHONEME_MAP_last :
  PL_PHONEME_MAP = removelast PL_PHONEME_MAP ++ [(utf8 "ː", [])].
Proof. vm_compute. reflexivity. Qed.

Lemma remap_no_length_mark (ps : str) : 720 ∉ PLG2P.remap ps.
Proof.
  rewrite remap_apply_rules, PL_PHONEME_MAP_last, apply_rules_app.
  cbn [apply_rules fold_left fst snd]. change (utf8 "ː") with [720].
  rewrite replace_delete_char. by intros [Hn _]%list_elem_of_filter.
Qed.

(** X1: the remap step only brings in canonical affricate symbols: a
    character of the remapped string is a character of the string that was
    given or one of the six affricate symbols. *)
Theorem remap_alphabet (ps : str) (c : Z) :
  c ∈ PLG2P.remap ps -> c ∈ ps \/ c ∈ affricate_symbols.
Proof.
  rewrite remap_apply_rules. apply apply_rules_elem_of.
  vm_compute. reflexivity.
Qed.

Lemma remap_alphabet_witness :
  679 ∈ utf8 "tʃ" \/ 679 ∈ affricate_symbols.
Proof. apply (remap_alphabet (utf8 "tʃ") 679). elem_of_list. Defined.

Lemma remap_untouched (ps : str) :
  116 ∉ ps -> 100 ∉ ps -> 720 ∉ ps -> PLG2P.remap ps = ps.
Proof.
  intros Ht Hd Hl. rewrite remap_apply_rules.
  apply (apply_rules_untriggered [116; 100; 720]); [vm_compute; reflexivity|].
  intros c Hc. repeat (apply elem_of_cons in Hc as [->|Hc]); try done.
  by apply elem_of_nil in Hc.
Qed.

Section Raw.

Context `{PyRuntime}.
Variable self : PLG2P.t.

(** The last steps only delete characters of the remapped string. *)
Lemma postprocess_elem_remap (raw : str) (c : Z) :
  c ∈ PLG2P.postprocess self raw -> c ∈ PLG2P.remap (strip raw).
Proof.
  unfold PLG2P.postprocess.
  destruct (canonicalize_filter self) as (dr & Hcanon & _ & _).
  rewrite Hcanon. by intros [_ Hin]%list_elem_of_filter.
Qed.

(** X2: the phoneme string is never longer than the raw transcription. *)
Theorem postprocess_length (raw : str) :
  (length (PLG2P.postprocess self raw) <= length raw)%nat.
Proof.
  unfold PLG2P.postprocess.
  destruct (canonicalize_filter self) as (dr & Hcanon & _ & _).
  rewrite Hcanon. etrans; [apply length_filter|].
  etrans; [|apply strip_length].
  rewrite remap_apply_rules. apply apply_rules_length.
  vm_compute. reflexivity.
Qed.

(** X3: the vowel-length mark U+02D0 never occurs in the phoneme string. *)
Theorem postprocess_no_length_mark (raw : str) :
  720 ∉ PLG2P.postprocess self raw.
Proof.
  intros Hin%postprocess_elem_remap. by apply remap_no_length_mark in Hin.
Qed.

(** X4: a raw transcription with none of [t], [d], U+02D0, [^], U+0329,
    U+032A and [-] is returned as it is, up to the stripping of its ends. *)
Theorem postprocess_untouched (raw : str) :
  (forall c, c ∈ [116; 100; 720; 94; 809; 810; 45] -> c ∉ raw) ->
  PLG2P.postprocess self raw = strip raw.
Proof.
  intros Hraw.
  assert (Hs : forall c, c ∈ [116; 100; 720; 94; 809; 810; 45] -> c ∉ strip raw).
  { intros c Hc Hin%strip_elem_of. by apply (Hraw c). }
  unfold PLG2P.postprocess.
  destruct (canonicalize_filter self) as (dr & Hcanon & _ & Hdr).
  rewrite Hcanon, remap_untouched by (apply Hs; elem_of_list).
  apply filter_keep_all_id. intros x Hx.
  destruct (dr x) eqn:Hdx; [|done]. exfalso.
  apply (Hs x); [|done].
  apply Hdr in Hdx as [-> | [-> | [-> | ->]]]; elem_of_list.
Qed.

(** X5: with a version other than "2.0" every hyphen is deleted, while the
    syllabicity marks U+0329 of the raw transcription all stay. *)
Theorem postprocess_legacy (raw : str) :
  PLG2P.version self <> utf8 "2.0" ->
  (45 ∉ PLG2P.postprocess self raw)
  /\ count 809 (PLG2P.postprocess self raw) = count 809 raw.
Proof.
  intros Hv. unfold PLG2P.postprocess, PLG2P.canonicalize.
  rewrite syllabic_other by done.
  change (utf8 "^") with [94]. rewrite replace_delete_char. split.
  - by intros [Hn _]%list_elem_of_filter.
  - unfold count. rewrite !filter_eq_filter_ne by done.
    by rewrite remap_keeps_char, strip_keeps_char.
Qed.

End Raw.

Lemma postprocess_untouched_witness :
  PLG2P.postprocess (Sample.g2p_with (utf8 "2.0") Sample.echo) (utf8 " ʂɕa ")
  = strip (utf8 " ʂɕa ").
Proof.
  apply postprocess_untouched. intros c Hc Hin.
  vm_compute in Hin.
  repeat (apply elem_of_cons in Hc as [->|Hc]);
    try (repeat (apply elem_of_cons in Hin as [[=]|Hin]); by apply elem_of_nil in Hin).
  by apply elem_of_nil in Hc.
Defined.

Lemma postprocess_legacy_witness :
  (45 ∉ PLG2P.postprocess (Sample.g2p_with (utf8 "1.0") Sample.echo) [110; 809; 45])
  /\ count 809 (PLG2P.postprocess (Sample.g2p_with (utf8 "1.0") Sample.echo) [110; 809; 45])
     = count 809 [110; 809; 45].
Proof.
  apply (postprocess_legacy (Sample.g2p_with (utf8 "1.0") Sample.echo)).
  vm_compute. intros [=].
Defined.

(** ** The scan for numerals *)

Lemma span_app (p : Z -> bool) (s a b : str) : PLG2P.span p s = (a, b) -> s = a ++ b.
Proof.
  revert a b; induction s as [|c s IH]; intros a b; simpl.
  - by intros [= <- <-].
  - destruct (p c); [|by intros [= <- <-]].
    destruct (PLG2P.span p s) as [a' b'] eqn:E. intros [= <- <-].
    simpl. f_equal. by apply IH.
Qed.

Lemma span_maximal (p : Z -> bool) (s a b : str) :
  PLG2P.span p s = (a, b) ->
  forallb p a = true /\ match b with [] => True | c :: _ => p c = false end.
Proof.
  revert a b; induction s as [|c s IH]; intros a b; simpl.
  - by intros [= <- <-].
  - destruct (p c) eqn:Hc; [|by intros [= <- <-]].
    destruct (PLG2P.span p s) as [a' b'] eqn:E. intros [= <- <-].
    destruct (IH _ _ eq_refl) as [Ha Hb]. simpl. by rewrite Hc, Ha.
Qed.

Section Scan.

Context `{PyRuntime}.

(** X17: a numeral is matched whole: the match starts with a digit and
    what follows it in the text does not start with a digit. *)
Theorem match_number_maximal (num rest : str) :
  PLG2P.match_number (num ++ rest) = Some num ->
  (exists d num', num = d :: num' /\ isdecimal d = true)
  /\ match rest with [] => True | c :: _ => isdecimal c = false end.
Proof.
  unfold PLG2P.match_number.
  destruct (PLG2P.span isdecimal (num ++ rest)) as [int_part after] eqn:E1.
  pose proof (span_app _ _ _ _ E1) as Hs.
  apply span_maximal in E1 as [Hint Hafter].
  destruct int_part as [|d int_part]; [done|].
  simpl in Hint. apply andb_true_iff in Hint as [Hd Hint].
  destruct after as [|sep after].
  { intros [= <-]. apply app_inv_head in Hs as ->.
    split; [by exists d, int_part | done]. }
  destruct ((sep =? 46) || (sep =? 44)).
  - destruct (PLG2P.span isdecimal after) as [frac_part after'] eqn:E2.
    pose proof (span_app _ _ _ _ E2) as Hs2.
    apply span_maximal in E2 as [Hfrac Hafter'].
    destruct frac_part as [|f frac_part]; intros [= <-].
    + apply app_inv_head in Hs as ->. split; [by exists d, int_part | done].
    + split; [by exists d, (int_part ++ sep :: f :: frac_part)|].
      simpl in Hs. injection Hs as Hs.
      rewrite <- app_assoc in Hs. apply app_inv_head in Hs.
      simpl in Hs. injection Hs as Hs. rewrite Hs2 in Hs.
      change (f :: frac_part ++ rest) with ((f :: frac_part) ++ rest) in Hs.
      apply app_inv_head in Hs as ->. done.
  - intros [= <-]. apply app_inv_head in Hs as ->.
    split; [by exists d, int_part | done].
Qed.

Lemma match_number_prefix (s num : str) :
  PLG2P.match_number s = Some num -> num <> [] /\ exists rest, s = num ++ rest.
Proof.
  unfold PLG2P.match_number.
  destruct (PLG2P.span isdecimal s) as [int_part rest] eqn:E1.
  apply span_app in E1 as ->.
  destruct int_part as [|d int_part]; [done|].
  destruct rest as [|sep rest]; [intros [= <-]; split; [done | by exists []]|].
  destruct ((sep =? 46) || (sep =? 44));
    [|intros [= <-]; split; [done | by exists (sep :: rest)]].
  destruct (PLG2P.span isdecimal rest) as [frac_part rest'] eqn:E2.
  apply span_app in E2 as ->.
  destruct frac_part as [|f frac_part]; intros [= <-]; (split; [done|]).
  - by exists (sep :: rest').
  - exists rest'. simpl. f_equal. by rewrite <- app_assoc.
Qed.

Lemma match_number_no_digit (c : Z) (s : str) :
  isdecimal c = false -> PLG2P.match_number (c :: s) = None.
Proof. intros Hc. unfold PLG2P.match_number. simpl. by rewrite Hc. Qed.

Variable spell : PLG2P.number -> result str.

Lemma sub_numbers_skip (k : nat) (text : str) :
  PLG2P.sub_numbers spell k text = PLG2P.sub_numbers spell O (drop k text).
Proof. revert k; induction text as [|c text IH]; intros [|k]; simpl; done. Qed.

Lemma convert_numbers_miss (c : Z) (text : str) :
  PLG2P.match_number (c :: text) = None ->
  PLG2P.convert_numbers spell (c :: text) = c :: PLG2P.convert_numbers spell text.
Proof. intros Hm. unfold PLG2P.convert_numbers. cbn [PLG2P.sub_numbers]. by rewrite Hm. Qed.

Lemma convert_numbers_hit (num text : str) :
  PLG2P.match_number text = Some num ->
  PLG2P.convert_numbers spell text
  = PLG2P.replace_number spell num
    ++ PLG2P.convert_numbers spell (drop (length num) text).
Proof.
  intros Hm. destruct (match_number_prefix _ _ Hm) as [Hne [rest ->]].
  destruct num as [|d num]; [done|].
  unfold PLG2P.convert_numbers. cbn [app PLG2P.sub_numbers].
  change (d :: num ++ rest) with ((d :: num) ++ rest). rewrite Hm.
  rewrite sub_numbers_skip. do 2 f_equal. simpl. by rewrite Nat.sub_0_r.
Qed.

(** X6: a numeral matched at the start of the text is replaced on its own
    and the scan goes on in what follows it: the words put in its place
    are not scanned again. *)
Theorem convert_numbers_match (num rest : str) :
  PLG2P.match_number (num ++ rest) = Some num ->
  PLG2P.convert_numbers spell (num ++ rest)
  = PLG2P.replace_number spell num ++ PLG2P.convert_numbers spell rest.
Proof.
  intros Hm. rewrite (convert_numbers_hit num) by done.
  by rewrite drop_app_length.
Qed.

(** X7: a text without any decimal digit is returned as it is. *)
Theorem convert_numbers_no_digit (text : str) :
  (forall c, c ∈ text -> isdecimal c = false) ->
  PLG2P.convert_numbers spell text = text.
Proof.
  induction text as [|c text IH]; intros Htext; [done|].
  rewrite convert_numbers_miss.
  - rewrite IH; [done|]. intros x Hx. apply Htext. by right.
  - apply match_number_no_digit, Htext. by left.
Qed.

Lemma replace_number_failure (num : str) :
  (forall n, exists e, spell n = Raise e) -> 44 ∉ num ->
  PLG2P.replace_number spell num = num.
Proof.
  intros Hspell Hnum. unfold PLG2P.replace_number.
  assert (Hsame : replace (utf8 ",") (utf8 ".") num = num).
  { apply (replace_absent _ _ _ 44); [elem_of_list | done]. }
  rewrite Hsame.
  destruct (negb (str_in (utf8 ".") num) && negb (str_in (utf8 ",") num)).
  - destruct (int_of_str num) as [n|e]; [|done]. simpl.
    by destruct (Hspell (PLG2P.NInt n)) as [e ->].
  - destruct (float_of_str num) as [x|e]; [|done]. simpl.
    by destruct (Hspell (PLG2P.NFloat x)) as [e ->].
Qed.

(** X8: when no number can be spelled, a text without comma is returned as
    it is. *)
Theorem convert_numbers_failure (text : str) :
  (forall n, exists e, spell n = Raise e) -> 44 ∉ text ->
  PLG2P.convert_numbers spell text = text.
Proof.
  intros Hspell. remember (length text) as n eqn:Hn.
  revert text Hn; induction n as [n IH] using lt_wf_ind; intros text -> Htext.
  destruct text as [|c text]; [done|].
  destruct (PLG2P.match_number (c :: text)) as [num|] eqn:Hm.
  - rewrite (convert_numbers_hit num) by done.
    destruct (match_number_prefix _ _ Hm) as [Hne [rest Hrest]].
    rewrite Hrest in *. rewrite drop_app_length.
    rewrite replace_number_failure; [|done|].
    + f_equal. apply (IH (length rest)); [|done|].
      * rewrite length_app. destruct num; [done | simpl; lia].
      * intros Hin. apply Htext, elem_of_app. by right.
    + intros Hin. apply Htext, elem_of_app. by left.
  - rewrite convert_numbers_miss by done. f_equal.
    apply (IH (length text)); [simpl; lia | done |].
    intros Hin. apply Htext. by right.
Qed.

End Scan.

Lemma convert_numbers_match_witness :
  PLG2P.convert_numbers (H := Latin.runtime) Sample.no_words (utf8 "12" ++ utf8 " km")
  = PLG2P.replace_number (H := Latin.runtime) Sample.no_words (utf8 "12")
    ++ PLG2P.convert_numbers (H := Latin.runtime) Sample.no_words (utf8 " km").
Proof.
  apply (convert_numbers_match (H := Latin.runtime) Sample.no_words).
  vm_compute. reflexivity.
Defined.

Lemma convert_numbers_no_digit_witness :
  PLG2P.convert_numbers (H := Latin.runtime) Sample.no_words (utf8 "km") = utf8 "km".
Proof.
  apply (convert_numbers_no_digit (H := Latin.runtime)).
  intros c Hc. vm_compute in Hc.
  repeat (apply elem_of_cons in Hc as [->|Hc]); try reflexivity.
  by apply elem_of_nil in Hc.
Defined.

Lemma convert_numbers_failure_witness :
  PLG2P.convert_numbers (H := Latin.runtime) Sample.no_words (utf8 "12.5 km")
  = utf8 "12.5 km".
Proof.
  apply (convert_numbers_failure (H := Latin.runtime)).
  - intros n. by exists "OverflowError"%string.
  - vm_compute. intros Hc.
    repeat (apply elem_of_cons in Hc as [[=]|Hc]). by apply elem_of_nil in Hc.
Defined.

Lemma match_number_maximal_witness :
  (exists d num', utf8 "12,5" = d :: num' /\ Latin.isdecimal d = true)
  /\ match utf8 " km" with [] => True | c :: _ => Latin.isdecimal c = false end.
Proof.
  apply (match_number_maximal (H := Latin.runtime) (utf8 "12,5") (utf8 " km")).
  vm_compute. reflexivity.
Defined.

(** ** Tokens *)

Lemma is_word_chars (w : str) :
  is_word w = true -> w <> [] /\ forallb (fun c => negb (isspace c)) w = true.
Proof. by destruct w. Qed.

Lemma split_scan_words (s cur : str) :
  forallb (fun c => negb (isspace c)) cur = true ->
  Forall (fun w => is_word w = true) (split_scan cur s).
Proof.
  revert cur; induction s as [|c s IH]; intros cur Hcur; simpl.
  - destruct cur as [|x cur]; [constructor|]. constructor; [|constructor].
    assert (Hrev : forallb (fun c => negb (isspace c)) (rev (x :: cur)) = true).
    { apply forallb_forall. intros y Hy%in_rev.
      by apply (proj1 (forallb_forall _ _) Hcur). }
    destruct (rev (x :: cur)) as [|y r] eqn:E; [|done].
    apply (f_equal length) in E. rewrite length_rev in E. done.
  - destruct (isspace c) eqn:Hc.
    + destruct cur as [|x cur]; [by apply IH|]. constructor; [|by apply IH].
      assert (Hrev : forallb (fun c => negb (isspace c)) (rev (x :: cur)) = true).
      { apply forallb_forall. intros y Hy%in_rev.
        by apply (proj1 (forallb_forall _ _) Hcur). }
      destruct (rev (x :: cur)) as [|y r] eqn:E; [|done].
      apply (f_equal length) in E. rewrite length_rev in E. done.
    + apply IH. simpl. by rewrite Hc.
Qed.

Lemma split_words (s : str) : Forall (fun w => is_word w = true) (split s).
Proof. by apply split_scan_words. Qed.

Lemma split_scan_word (w cur rest : str) :
  forallb (fun c => negb (isspace c)) w = true ->
  split_scan cur (w ++ rest) = split_scan (rev w ++ cur) rest.
Proof.
  revert cur; induction w as [|c w IH]; intros cur Hw; [done|].
  simpl in Hw. apply andb_true_iff in Hw as [Hc%negb_true_iff Hw].
  cbn [app split_scan]. rewrite Hc, IH by done.
  simpl. by rewrite <- app_assoc.
Qed.

Lemma join_cons (sep w w2 : str) (ws : list str) :
  join sep (w :: w2 :: ws) = w ++ sep ++ join sep (w2 :: ws).
Proof. done. Qed.

(** Joining words with single spaces and splitting again gives the words. *)
Lemma split_join (ws : list str) :
  Forall (fun w => is_word w = true) ws -> split (join (utf8 " ") ws) = ws.
Proof.
  induction 1 as [|w ws Hw Hws IH]; [done|].
  apply is_word_chars in Hw as [Hne Hw]. unfold split in *.
  destruct ws as [|w2 ws].
  - cbn [join]. rewrite <- (app_nil_r w) at 1.
    rewrite split_scan_word, app_nil_r by done. simpl.
    destruct (rev w) as [|y r] eqn:E.
    + apply (f_equal length) in E. rewrite length_rev in E. by destruct w.
    + by rewrite <- E, rev_involutive.
  - rewrite join_cons, split_scan_word, app_nil_r by done.
    change (utf8 " " ++ ?j) with (32 :: j). cbn [split_scan].
    change (isspace 32) with true. cbv iota.
    destruct (rev w) as [|y r] eqn:E.
    + apply (f_equal length) in E. rewrite length_rev in E. by destruct w.
    + by rewrite <- E, rev_involutive, IH.
Qed.

Lemma split_scan_lstrip (s : str) : split_scan [] (lstrip s) = split_scan [] s.
Proof.
  induction s as [|c s IH]; [done|]. simpl.
  destruct (isspace c) eqn:Hc; [done|]. simpl. by rewrite Hc.
Qed.

Lemma split_scan_cons (cur : str) (c : Z) (s : str) :
  split_scan cur (c :: s)
  = if isspace c
    then match cur with
         | [] => split_scan [] s
         | _ => rev cur :: split_scan [] s
         end
    else split_scan (c :: cur) s.
Proof. done. Qed.

Lemma split_scan_rstrip (s cur : str) :
  split_scan cur (rstrip s) = split_scan cur s.
Proof.
  unfold rstrip. revert cur; induction s as [|c s IH]; intros cur; [done|].
  cbn [rstrip_by]. destruct (rstrip_by isspace s) as [|y r] eqn:E.
  - rewrite (split_scan_cons cur c s).
    destruct (isspace c) eqn:Hc.
    + rewrite <- IH. by destruct cur.
    + rewrite <- IH. cbn [split_scan]. by rewrite Hc.
  - rewrite !(split_scan_cons cur c).
    destruct (isspace c); [|by rewrite IH].
    destruct cur; by rewrite IH.
Qed.

Lemma split_strip (s : str) : split (strip s) = split s.
Proof. unfold split, strip. by rewrite split_scan_rstrip, split_scan_lstrip. Qed.

(** ** The cleaner *)

Section Cleaner.

Context `{PyRuntime}.

Lemma call_tokens (text : str) :
  PLCleaner.call text
  = join (utf8 " ") (map PLCleaner.expand_word (split text)).
Proof.
  unfold PLCleaner.call, PLCleaner.expand_abbreviations.
  by rewrite normalize_unicode_id, split_strip.
Qed.

(** X9: the cleaner is the expansion of abbreviations alone: the stripping
    and the unicode step before it change nothing of the result. *)
Theorem cleaner_is_expansion (text : str) :
  PLCleaner.call text = PLCleaner.expand_abbreviations text.
Proof.
  unfold PLCleaner.call. rewrite normalize_unicode_id.
  unfold PLCleaner.expand_abbreviations. by rewrite split_strip.
Qed.

Lemma word_lower_live (word : str) : ends_with_punctuation (PLCleaner.word_lower word) = false.
Proof.
  unfold ends_with_punctuation.
  destruct (last (PLCleaner.word_lower word)) as [d|] eqn:E; [|done].
  apply not_true_is_false. intros Hd.
  apply (word_lower_no_trailing_punctuation word _ d E); [|done].
  unfold mem in Hd. apply existsb_exists in Hd as (y & Hy%list_elem_of_In & ->%Z.eqb_eq).
  done.
Qed.

Lemma expand_word_is_word (word : str) :
  is_word word = true -> is_word (PLCleaner.expand_word word) = true.
Proof.
  intros Hw. unfold PLCleaner.expand_word.
  destruct (PLCleaner.ABBREVIATIONS !! PLCleaner.word_lower word) as [e|] eqn:E; [|done].
  assert (Hall : expansions_are_words = true) by (vm_compute; reflexivity).
  unfold expansions_are_words in Hall. rewrite forallb_forall in Hall.
  apply elem_of_map_to_list, list_elem_of_In, Hall in E.
  cbn [fst snd] in E. by rewrite word_lower_live in E.
Qed.

Lemma expanded_words (text : str) :
  Forall (fun w => is_word w = true) (map PLCleaner.expand_word (split text)).
Proof.
  apply Forall_map. eapply Forall_impl; [apply split_words|].
  apply expand_word_is_word.
Qed.

Lemma split_call (text : str) :
  split (PLCleaner.call text) = map PLCleaner.expand_word (split text).
Proof. rewrite call_tokens. apply split_join, expanded_words. Qed.

(** X10: the cleaned text is its own tokens joined by single spaces: it has
    no whitespace at its ends and exactly one space between two tokens,
    whatever whitespace the text had. *)
Theorem cleaner_single_spaces (text : str) :
  join (utf8 " ") (split (PLCleaner.call text)) = PLCleaner.call text.
Proof. rewrite split_call. symmetry. apply call_tokens. Qed.

(** X11: cleaning a cleaned text changes nothing, provided [lower] leaves
    the expansions of the table, which are in lower case, as they are. *)
Theorem cleaner_idempotent (text : str) :
  (forall key expansion,
     PLCleaner.ABBREVIATIONS !! key = Some expansion -> lower expansion = expansion) ->
  PLCleaner.call (PLCleaner.call text) = PLCleaner.call text.
Proof.
  intros Hlower.
  rewrite (call_tokens (PLCleaner.call text)), split_call.
  rewrite call_tokens, map_map. f_equal.
  apply map_ext. intros word.
  destruct (PLCleaner.ABBREVIATIONS !! PLCleaner.word_lower word) as [e|] eqn:E.
  - assert (Hw : PLCleaner.expand_word word = e)
      by (unfold PLCleaner.expand_word; by rewrite E).
    rewrite Hw.
    assert (Hall : expansions_are_final = true) by (vm_compute; reflexivity).
    unfold expansions_are_final in Hall. rewrite forallb_forall in Hall.
    pose proof (Hlower _ _ E) as He.
    apply elem_of_map_to_list, list_elem_of_In, Hall in E.
    cbn [fst snd] in E. rewrite word_lower_live in E.
    apply andb_true_iff in E as [Hstrip%str_eqb_eq Hnone].
    unfold PLCleaner.expand_word, PLCleaner.word_lower. rewrite He, Hstrip.
    revert Hnone. by destruct (PLCleaner.ABBREVIATIONS !! e).
  - assert (Hw : PLCleaner.expand_word word = word)
      by (unfold PLCleaner.expand_word; by rewrite E).
    by rewrite !Hw.
Qed.

End Cleaner.

Lemma cleaner_idempotent_witness :
  PLCleaner.call (H := Latin.runtime)
    (PLCleaner.call (H := Latin.runtime) (utf8 "  DR.  Nowak, 5 ZŁ "))
  = PLCleaner.call (H := Latin.runtime) (utf8 "  DR.  Nowak, 5 ZŁ ").
Proof.
  apply (cleaner_idempotent (H := Latin.runtime)).
  intros key expansion Hk.
  apply elem_of_map_to_list in Hk. vm_compute in Hk.
  repeat (apply elem_of_cons in Hk as [[= -> ->]|Hk]); try reflexivity.
  by apply elem_of_nil in Hk.
Defined.

(** ** Quotes *)

Lemma replace_char_map (c d : Z) (s : str) :
  replace [c] [d] s = map (fun x => if x =? c then d else x) s.
Proof.
  induction s as [|x s IH]; [done|].
  destruct (startswith [c] (x :: s)) eqn:Hs.
  - rewrite replace_hit by done.
    simpl in Hs. rewrite andb_true_r in Hs. apply Z.eqb_eq in Hs. subst x.
    simpl. rewrite Z.eqb_refl. f_equal. exact IH.
  - rewrite replace_miss by done.
    simpl in Hs. rewrite andb_true_r, Z.eqb_sym in Hs.
    simpl. rewrite Hs. f_equal. exact IH.
Qed.

(** X12: the text handed to the backend is the cleaned text, with its
    numerals spelled when [num2words] is there, in which each guillemet and
    each low double quote has been replaced by the straight double quote
    and nothing else has changed; so none of these three characters is in
    it, also in the words that stand for numerals. *)
Theorem prepare_no_quotes `{PyRuntime} (self : PLG2P.t) (text : str) :
  PLG2P.prepare self text
  = map (fun x => if (x =? 171) || (x =? 187) || (x =? 8222) then 34 else x)
      match PLG2P.num2words self with
      | Some spell => PLG2P.convert_numbers spell (PLCleaner.call text)
      | None => PLCleaner.call text
      end
  /\ (forall c, c ∈ utf8 "«»„" -> c ∉ PLG2P.prepare self text).
Proof.
  assert (Heq : PLG2P.prepare self text
    = map (fun x => if (x =? 171) || (x =? 187) || (x =? 8222) then 34 else x)
        match PLG2P.num2words self with
        | Some spell => PLG2P.convert_numbers spell (PLCleaner.call text)
        | None => PLCleaner.call text
        end).
  { unfold PLG2P.prepare. rewrite replace_same_char.
    change (utf8 "„") with [8222]. change (utf8 "»") with [187].
    change (utf8 "«") with [171].
    rewrite !replace_char_map, !map_map. apply map_ext. intros x.
    destruct (x =? 171) eqn:E1; [done|].
    destruct (x =? 187) eqn:E2; [done|].
    by destruct (x =? 8222). }
  split; [exact Heq|].
  intros c Hc. rewrite Heq. intros (x & Hx & _)%list_elem_of_fmap.
  vm_compute in Hc.
  repeat (apply elem_of_cons in Hc as [->|Hc]); [| | |by apply elem_of_nil in Hc].
  - destruct ((x =? 171) || (x =? 187) || (x =? 8222)) eqn:E; [done|].
    subst x. done.
  - destruct ((x =? 171) || (x =? 187) || (x =? 8222)) eqn:E; [done|].
    subst x. done.
  - destruct ((x =? 171) || (x =? 187) || (x =? 8222)) eqn:E; [done|].
    subst x. done.
Qed.

Lemma prepare_no_quotes_witness :
  PLG2P.prepare (Sample.g2p_with (utf8 "2.0") Sample.echo) (utf8 "«a» „b”")
  = [34; 97; 34; 32; 34; 98; 8221]
  /\ 171 ∉ PLG2P.prepare (Sample.g2p_with (utf8 "2.0") Sample.echo) (utf8 "«a» „b”").
Proof.
  destruct (prepare_no_quotes (Sample.g2p_with (utf8 "2.0") Sample.echo)
              (utf8 "«a» „b”")) as [Heq Hno].
  split.
  - etrans; [exact Heq|]. vm_compute. reflexivity.
  - apply Hno. elem_of_list.
Defined.

(** ** The entry points *)

Section Entry.

Context `{PyRuntime}.

(** X13: [phonemize] returns a phoneme string exactly when the call
    returns it, and the second component of a call's result is always
    [None]; [phonemize] fails exactly when the call fails. *)
Theorem phonemize_call (self : PLG2P.t) (text : str) :
  (forall ps, PLG2P.phonemize self text = Ok ps
              <-> PLG2P.call self text = Ok (ps, None))
  /\ (forall e, PLG2P.phonemize self text = Raise e
                <-> PLG2P.call self text = Raise e).
Proof.
  unfold PLG2P.phonemize.
  destruct (PLG2P.call self text) as [[out aux]|e] eqn:Hcall; cbn [bind fst].
  - apply call_ok_inv in Hcall as [-> _]. split.
    + intros ps. split; [by intros [= ->] | by intros [= ->]].
    + intros e. split; intros [=].
  - split.
    + intros ps. split; intros [=].
    + intros e'. split; [by intros [= ->] | by intros [= ->]].
Qed.

Context `{!PLG2P.Imports}.

Lemma init_version (fallback version : option str) (self : PLG2P.t) :
  PLG2P.init fallback version = Ok self ->
  PLG2P.version self = default (utf8 "2.0") version.
Proof.
  unfold PLG2P.init. destruct (PLG2P.EspeakBackend _) as [backend|e]; [|done].
  cbn [bind]. by intros [= <-].
Qed.

(** X14: a phoneme string returned by the module-level [g2p] contains no
    tie character, no length mark U+02D0 and neither of the combining
    marks U+0329 and U+032A. *)
Theorem g2p_alphabet (text ps : str) (c : Z) :
  PLG2P.g2p text = Ok ps -> c ∈ [94; 720; 809; 810] -> c ∉ ps.
Proof.
  unfold PLG2P.g2p.
  destruct (PLG2P.init None None) as [self|e] eqn:Hinit; [|done].
  apply init_version in Hinit. cbn [bind default] in *.
  destruct (PLG2P.call self text) as [[out aux]|e] eqn:Hcall; [|done].
  cbn [bind fst]. intros [= ->] Hc.
  apply call_ok_inv in Hcall as [_ [[_ ->]|(raw & rest & _ & ->)]];
    [apply not_elem_of_nil|].
  repeat (apply elem_of_cons in Hc as [->|Hc]); [| | | |by apply elem_of_nil in Hc].
  - apply postprocess_no_tie.
  - intros Hin%postprocess_elem_remap. by apply remap_no_length_mark in Hin.
  - rewrite postprocess_v2 by done.
    by intros [_ [Hn _]%list_elem_of_filter]%list_elem_of_filter.
  - rewrite postprocess_v2 by done. by intros [Hn _]%list_elem_of_filter.
Qed.

End Entry.

Lemma g2p_alphabet_witness :
  94 ∉ utf8 "ʨa".
Proof.
  apply (g2p_alphabet (H0 := Sample.imports) (utf8 "t^ɕaː") (utf8 "ʨa") 94).
  - vm_compute. reflexivity.
  - elem_of_list.
Defined.

(** ** Abbreviations that are expanded *)

Lemma rstrip_by_keep (p : Z -> bool) (s : str) (d : Z) :
  last s = Some d -> p d = false -> rstrip_by p s = s.
Proof.
  intros [l ->]%last_Some Hd.
  rewrite rstrip_by_app_cons by done. done.
Qed.

Lemma rstrip_by_app_all (p : Z -> bool) (s t : str) :
  forallb p t = true -> rstrip_by p (s ++ t) = rstrip_by p s.
Proof.
  intros Ht. induction s as [|c s IH]; simpl.
  - by apply rstrip_by_blank.
  - by rewrite IH.
Qed.

Section Abbreviations.

Context `{PyRuntime}.

(** X15: an entry whose key does not end with one of [.,;:!?] is found
    whatever the case of the token and whatever punctuation of that set
    follows it: a token whose lower-case form is the key followed by such
    punctuation is replaced by the expansion. *)
Theorem undotted_abbreviation_expanded (word key tail expansion : str) :
  PLCleaner.ABBREVIATIONS !! key = Some expansion ->
  ends_with_punctuation key = false ->
  forallb (fun c => mem c (utf8 ".,;:!?")) tail = true ->
  lower word = key ++ tail ->
  PLCleaner.expand_word word = expansion.
Proof.
  intros Hkey Hlive Htail Hlower.
  assert (Hk : PLCleaner.word_lower word = key).
  { unfold PLCleaner.word_lower, rstrip_chars. rewrite Hlower.
    rewrite rstrip_by_app_all by exact Htail.
    unfold ends_with_punctuation in Hlive.
    destruct (last key) as [d|] eqn:Hlast.
    - by apply (rstrip_by_keep _ _ d).
    - apply last_None in Hlast as ->. done. }
  unfold PLCleaner.expand_word. by rewrite Hk, Hkey.
Qed.

(** X16: a token is either left as it is or replaced by the expansion of
    an entry whose key does not end with one of [.,;:!?]: the entries whose
    key ends with a full stop are never used. *)
Theorem expand_word_range (word : str) :
  PLCleaner.expand_word word = word
  \/ exists key,
       ends_with_punctuation key = false
       /\ PLCleaner.ABBREVIATIONS !! key = Some (PLCleaner.expand_word word).
Proof.
  unfold PLCleaner.expand_word.
  destruct (PLCleaner.ABBREVIATIONS !! PLCleaner.word_lower word) as [e|] eqn:E;
    [right | by left].
  exists (PLCleaner.word_lower word). split; [apply word_lower_live | done].
Qed.

End Abbreviations.

Lemma undotted_abbreviation_expanded_witness :
  PLCleaner.expand_word (H := Latin.runtime) (utf8 "ZŁ!?") = utf8 "złotych".
Proof.
  apply (undotted_abbreviation_expanded (H := Latin.runtime)
           (utf8 "ZŁ!?") (utf8 "zł") (utf8 "!?") (utf8 "złotych"));
    vm_compute; reflexivity.
Defined.
